(** * The TINY parser (parse.c): a shallow embedding in Rocq

    The scanner is the token source: a list of tokens together with a cursor
    [pos] that counts how many tokens [getToken] has handed out.  The global
    [token] / [tokenString] pair is the token at index [pos - 1]; once the list
    is exhausted the scanner answers [ENDFILE] for ever.  The global flag
    [Error] and the listing output of [syntaxError] are part of the state.
    Every parsing routine takes a fuel argument (its recursion budget) and
    returns [None] only when the budget is exhausted; heap allocation
    ([newStmtNode], [newExpNode]) is modelled as always succeeding, and the
    line numbers carried by nodes and diagnostics are not modelled. *)

From Stdlib Require Import String Ascii List ZArith Lia Bool.
Import ListNotations.
Open Scope string_scope.
Set Warnings "-register-all -non-full-mutual".

(** ** Tokens (globals.h) *)

Inductive TokenType : Type :=
  | ENDFILE | ERROR
  (* reserved words *)
  | IF | THEN | ELSE | END | REPEAT | UNTIL | READ | WRITE
  | WHILE | DO | ENDWHILE | DOWNTO | TO | FOR | ENDDO
  (* multicharacter tokens *)
  | ID | NUM
  (* special symbols *)
  | ASSIGN | EQ | LT | GT | PLUS | MINUS | TIMES | OVER | MOD
  | LPAREN | RPAREN | SEMI.

Scheme Equality for TokenType.

(** A token as the scanner hands it out: its kind and [tokenString]. *)
Record token : Type := mkTok { kind : TokenType; lexeme : string }.

Definition eofTok : token := mkTok ENDFILE "".

(** ** Syntax tree (globals.h, util.c) *)

Inductive StmtKind : Type :=
  | IfK | RepeatK | AssignK | ReadK | WriteK | WhileK | DoWhileK | ForK.

Inductive ExpKind : Type := OpK | ConstK | IdK.

Inductive NodeKind : Type := StmtK (k : StmtKind) | ExpK (k : ExpKind).

(** The [attr] union: unset, an operator, a value or a name. *)
Inductive Attr : Type :=
  | NoAttr
  | AOp (op : TokenType)
  | AVal (val : Z)
  | AName (name : string).

Inductive TreeNode : Type := mkNode {
  child0 : option TreeNode;
  child1 : option TreeNode;
  child2 : option TreeNode;
  sibling : option TreeNode;
  nodekind : NodeKind;
  attr : Attr }.

(** [newStmtNode] / [newExpNode] with all children filled in at once: the
    routines below only ever store into a freshly allocated node. *)
Definition stmtNode (k : StmtKind) (c0 c1 c2 : option TreeNode) (a : Attr) :=
  mkNode c0 c1 c2 None (StmtK k) a.

Definition expNode (k : ExpKind) (c0 c1 : option TreeNode) (a : Attr) :=
  mkNode c0 c1 None None (ExpK k) a.

(** [p->sibling = q]: the node with its sibling link overwritten. *)
Definition set_sibling (t : TreeNode) (q : option TreeNode) : TreeNode :=
  mkNode (child0 t) (child1 t) (child2 t) q (nodekind t) (attr t).

(** The sibling chain [t -> ... -> p] built by [stmt_sequence] from the
    non-null statements in order. *)
Fixpoint link (l : list TreeNode) : option TreeNode :=
  match l with
  | [] => None
  | x :: r => Some (set_sibling x (link r))
  end.

(** ** [atoi] on the lexeme of a number *)

Definition digit_val (c : ascii) : option Z :=
  let n := nat_of_ascii c in
  if (48 <=? n)%nat && (n <=? 57)%nat then Some (Z.of_nat (n - 48)) else None.

Fixpoint atoi_digits (s : string) (acc : Z) : Z :=
  match s with
  | EmptyString => acc
  | String c r =>
      match digit_val c with
      | Some d => atoi_digits r (10 * acc + d)
      | None => acc
      end
  end.

(** Leading white space is skipped, an optional sign is read, then digits;
    overflow is undefined in C and not modelled. *)
Fixpoint atoi (s : string) : Z :=
  match s with
  | String c r =>
      let n := nat_of_ascii c in
      if (n =? 32)%nat || ((9 <=? n)%nat && (n <=? 13)%nat) then atoi r
      else if (n =? 45)%nat then - atoi_digits r 0
      else if (n =? 43)%nat then atoi_digits r 0
      else atoi_digits s 0
  | EmptyString => 0
  end.

(** ** Parser state and the state/option monad *)

Record state : Type := mkState {
  toks : list token;      (* the token source *)
  pos : nat;              (* number of tokens fetched by getToken *)
  Error : bool;           (* the global error flag *)
  diags : list string }.  (* messages written by syntaxError *)

(** The global [token] and [tokenString]. *)
Definition cur (s : state) : token := nth (pred (pos s)) (toks s) eofTok.

Definition M (A : Type) : Type := state -> option (A * state).

Definition ret {A} (a : A) : M A := fun s => Some (a, s).

Definition bind {A B} (m : M A) (k : A -> M B) : M B :=
  fun s => match m s with
           | Some (a, s') => k a s'
           | None => None
           end.

Definition out_of_fuel {A} : M A := fun _ => None.

Notation "x <- m ;; k" := (bind m (fun x => k))
  (at level 61, m at next level, right associativity).
Notation "m ;; k" := (bind m (fun _ => k))
  (at level 61, right associativity).

Definition token_kind : M TokenType := fun s => Some (kind (cur s), s).
Definition tokenString : M string := fun s => Some (lexeme (cur s), s).

(** [token = getToken()]. *)
Definition advance (s : state) : state :=
  mkState (toks s) (S (pos s)) (Error s) (diags s).
Definition getToken : M unit := fun s => Some (tt, advance s).

Definition record_error (msg : string) (s : state) : state :=
  mkState (toks s) (pos s) true (diags s ++ [msg]).

(** [syntaxError]: write the message, set [Error]. *)
Definition syntaxError (msg : string) : M unit :=
  fun s => Some (tt, record_error msg s).

Definition unexpected : string := "unexpected token -> ".

Definition code_ends : string :=
  "Code ends before file" ++ String (ascii_of_nat 10) EmptyString.

Open Scope list_scope.

(** [match]: advance on the expected token, otherwise report and stay. *)
Definition match_ (expected : TokenType) : M unit :=
  tk <- token_kind ;;
  if TokenType_beq tk expected then getToken
  else syntaxError unexpected.

Definition opt_list (t : option TreeNode) : list TreeNode :=
  match t with Some x => [x] | None => [] end.

(** The terminators tested by the loop of [stmt_sequence]. *)
Definition seq_end (tk : TokenType) : bool :=
  match tk with
  | ENDFILE | END | ELSE | UNTIL | WHILE | ENDWHILE | ENDDO => true
  | _ => false
  end.

Definition is_relop (tk : TokenType) : bool :=
  match tk with LT | EQ | GT => true | _ => false end.

Definition is_addop (tk : TokenType) : bool :=
  match tk with PLUS | MINUS => true | _ => false end.

Definition is_mulop (tk : TokenType) : bool :=
  match tk with TIMES | OVER | MOD => true | _ => false end.

(** The tokens dispatched on by [statement] and by [factor]. *)
Definition starts_statement (tk : TokenType) : bool :=
  match tk with
  | IF | REPEAT | ID | READ | WRITE | WHILE | DO | FOR => true
  | _ => false
  end.

Definition starts_factor (tk : TokenType) : bool :=
  match tk with NUM | ID | LPAREN => true | _ => false end.

(** ** The recursive-descent routines *)

Fixpoint stmt_sequence (n : nat) : M (option TreeNode) :=
  match n with
  | O => out_of_fuel
  | S n =>
      t <- statement n ;;
      stmt_seq_loop n (opt_list t)
  end

(** The [while] loop of [stmt_sequence]; [acc] is the chain [t .. p]. *)
with stmt_seq_loop (n : nat) (acc : list TreeNode) : M (option TreeNode) :=
  match n with
  | O => out_of_fuel
  | S n =>
      tk <- token_kind ;;
      if seq_end tk then ret (link acc)
      else
        match_ SEMI ;;
        q <- statement n ;;
        stmt_seq_loop n (acc ++ opt_list q)
  end

with statement (n : nat) : M (option TreeNode) :=
  match n with
  | O => out_of_fuel
  | S n =>
      tk <- token_kind ;;
      match tk with
      | IF => if_stmt n
      | REPEAT => repeat_stmt n
      | ID => assign_stmt n
      | READ => read_stmt n
      | WRITE => write_stmt n
      | WHILE => while_stmt n
      | DO => dowhile_stmt n
      | FOR => for_stmt n
      | _ => syntaxError unexpected ;; getToken ;; ret None
      end
  end

with if_stmt (n : nat) : M (option TreeNode) :=
  match n with
  | O => out_of_fuel
  | S n =>
      match_ IF ;;
      match_ LPAREN ;;
      c0 <- exp n ;;
      match_ RPAREN ;;
      match_ THEN ;;
      c1 <- stmt_sequence n ;;
      tk <- token_kind ;;
      c2 <- (if TokenType_beq tk ELSE
             then match_ ELSE ;; stmt_sequence n
             else ret None) ;;
      match_ END ;;
      ret (Some (stmtNode IfK c0 c1 c2 NoAttr))
  end

with repeat_stmt (n : nat) : M (option TreeNode) :=
  match n with
  | O => out_of_fuel
  | S n =>
      match_ REPEAT ;;
      c0 <- stmt_sequence n ;;
      match_ UNTIL ;;
      c1 <- exp n ;;
      ret (Some (stmtNode RepeatK c0 c1 None NoAttr))
  end

with assign_stmt (n : nat) : M (option TreeNode) :=
  match n with
  | O => out_of_fuel
  | S n =>
      tk <- token_kind ;;
      nm <- tokenString ;;
      match_ ID ;;
      match_ ASSIGN ;;
      c0 <- exp n ;;
      ret (Some (stmtNode AssignK c0 None None
                   (if TokenType_beq tk ID then AName nm else NoAttr)))
  end

with read_stmt (n : nat) : M (option TreeNode) :=
  match n with
  | O => out_of_fuel
  | S n =>
      match_ READ ;;
      tk <- token_kind ;;
      nm <- tokenString ;;
      match_ ID ;;
      ret (Some (stmtNode ReadK None None None
                   (if TokenType_beq tk ID then AName nm else NoAttr)))
  end

with write_stmt (n : nat) : M (option TreeNode) :=
  match n with
  | O => out_of_fuel
  | S n =>
      match_ WRITE ;;
      c0 <- exp n ;;
      ret (Some (stmtNode WriteK c0 None None NoAttr))
  end

with exp (n : nat) : M (option TreeNode) :=
  match n with
  | O => out_of_fuel
  | S n =>
      t <- simple_exp n ;;
      tk <- token_kind ;;
      if is_relop tk then
        match_ tk ;;
        c1 <- simple_exp n ;;
        ret (Some (expNode OpK t c1 (AOp tk)))
      else ret t
  end

with simple_exp (n : nat) : M (option TreeNode) :=
  match n with
  | O => out_of_fuel
  | S n =>
      t <- term n ;;
      simple_exp_loop n t
  end

(** The [while] loop of [simple_exp]: [t] is the left operand so far. *)
with simple_exp_loop (n : nat) (t : option TreeNode) : M (option TreeNode) :=
  match n with
  | O => out_of_fuel
  | S n =>
      tk <- token_kind ;;
      if is_addop tk then
        match_ tk ;;
        c1 <- term n ;;
        simple_exp_loop n (Some (expNode OpK t c1 (AOp tk)))
      else ret t
  end

with term (n : nat) : M (option TreeNode) :=
  match n with
  | O => out_of_fuel
  | S n =>
      t <- factor n ;;
      term_loop n t
  end

(** The [while] loop of [term]. *)
with term_loop (n : nat) (t : option TreeNode) : M (option TreeNode) :=
  match n with
  | O => out_of_fuel
  | S n =>
      tk <- token_kind ;;
      if is_mulop tk then
        match_ tk ;;
        c1 <- factor n ;;
        term_loop n (Some (expNode OpK t c1 (AOp tk)))
      else ret t
  end

with factor (n : nat) : M (option TreeNode) :=
  match n with
  | O => out_of_fuel
  | S n =>
      tk <- token_kind ;;
      match tk with
      | NUM =>
          str <- tokenString ;;
          match_ NUM ;;
          ret (Some (expNode ConstK None None (AVal (atoi str))))
      | ID =>
          str <- tokenString ;;
          match_ ID ;;
          ret (Some (expNode IdK None None (AName str)))
      | LPAREN =>
          match_ LPAREN ;;
          t <- exp n ;;
          match_ RPAREN ;;
          ret t
      | _ => syntaxError unexpected ;; getToken ;; ret None
      end
  end

with while_stmt (n : nat) : M (option TreeNode) :=
  match n with
  | O => out_of_fuel
  | S n =>
      match_ WHILE ;;
      c0 <- exp n ;;
      match_ DO ;;
      c1 <- stmt_sequence n ;;
      match_ ENDWHILE ;;
      ret (Some (stmtNode WhileK c0 c1 None NoAttr))
  end

with dowhile_stmt (n : nat) : M (option TreeNode) :=
  match n with
  | O => out_of_fuel
  | S n =>
      match_ DO ;;
      c0 <- stmt_sequence n ;;
      match_ WHILE ;;
      match_ LPAREN ;;
      c1 <- exp n ;;
      match_ RPAREN ;;
      ret (Some (stmtNode DoWhileK c0 c1 None NoAttr))
  end

with for_stmt (n : nat) : M (option TreeNode) :=
  match n with
  | O => out_of_fuel
  | S n =>
      match_ FOR ;;
      tk <- token_kind ;;
      nm <- tokenString ;;
      match_ ID ;;
      match_ ASSIGN ;;
      c0 <- simple_exp n ;;
      tk1 <- token_kind ;;
      (if TokenType_beq tk1 TO then match_ TO else ret tt) ;;
      tk2 <- token_kind ;;
      (if TokenType_beq tk2 DOWNTO then match_ DOWNTO else ret tt) ;;
      c1 <- simple_exp n ;;
      match_ DO ;;
      c2 <- stmt_sequence n ;;
      match_ ENDDO ;;
      ret (Some (stmtNode ForK c0 c1 c2
                   (if TokenType_beq tk ID then AName nm else NoAttr)))
  end.

(** [parse]: prime the lookahead, parse one sequence, check for the end. *)
Definition parse_body (n : nat) : M (option TreeNode) :=
  getToken ;;
  t <- stmt_sequence n ;;
  tk <- token_kind ;;
  (if TokenType_beq tk ENDFILE then ret tt else syntaxError code_ends) ;;
  ret t.

(** A fresh run: cursor before the first token, [Error] cleared. *)
Definition init (ts : list token) : state := mkState ts 0 false [].

Definition parse_fuel (n : nat) (ts : list token) :=
  parse_body n (init ts).

(** The recursion budget that always suffices (theorem [parse_terminates]). *)
Definition budget (ts : list token) : nat := 4 * length ts + 4.

Definition parse (ts : list token) := parse_fuel (budget ts) ts.

(** ** Sample token sequences *)

Definition tk (k : TokenType) : token := mkTok k "".
Definition ident (x : string) : token := mkTok ID x.
Definition number (x : string) : token := mkTok NUM x.

Definition constant (v : Z) : TreeNode := expNode ConstK None None (AVal v).
Definition variable (x : string) : TreeNode := expNode IdK None None (AName x).
Definition binop (op : TokenType) (l r : TreeNode) : TreeNode :=
  expNode OpK (Some l) (Some r) (AOp op).

(** [for i:=1 to 10 do write i enddo] *)
Definition for_to_input : list token :=
  [tk FOR; ident "i"; tk ASSIGN; number "1"; tk TO; number "10"; tk DO;
   tk WRITE; ident "i"; tk ENDDO].

(** The same loop with no direction keyword, and with both of them. *)
Definition for_nodir_input : list token :=
  [tk FOR; ident "i"; tk ASSIGN; number "1"; number "10"; tk DO;
   tk WRITE; ident "i"; tk ENDDO].

Definition for_both_input : list token :=
  [tk FOR; ident "i"; tk ASSIGN; number "1"; tk TO; tk DOWNTO; number "10";
   tk DO; tk WRITE; ident "i"; tk ENDDO].

Definition for_tree : TreeNode :=
  stmtNode ForK (Some (constant 1)) (Some (constant 10))
    (Some (stmtNode WriteK (Some (variable "i")) None None NoAttr))
    (AName "i").

(** [do while (x) do write x endwhile while (y)]: the body of the
    do-while starts with the terminator [while]. *)
Definition do_while_input : list token :=
  [tk DO; tk WHILE; tk LPAREN; ident "x"; tk RPAREN; tk DO; tk WRITE;
   ident "x"; tk ENDWHILE; tk WHILE; tk LPAREN; ident "y"; tk RPAREN].

(** The current token followed by the tokens not yet fetched. *)
Definition stream (s : state) : list token := skipn (pred (pos s)) (toks s).

(** An operand of one operator level: a number or an identifier, and the
    leaf [factor] builds for it. *)
Definition operand (t : token) : bool :=
  match kind t with NUM | ID => true | _ => false end.

Definition leaf (t : token) : TreeNode :=
  match kind t with
  | NUM => constant (atoi (lexeme t))
  | _ => variable (lexeme t)
  end.

Definition arith_op (tk : TokenType) : bool := is_addop tk || is_mulop tk.

(** [1-2+3] *)
Definition minus_plus_input : list token :=
  [number "1"; tk MINUS; number "2"; tk PLUS; number "3"].

(** [2+3*4] *)
Definition plus_times_input : list token :=
  [number "2"; tk PLUS; number "3"; tk TIMES; number "4"].

(** [2+3*4; if (y<1)]: the expression is followed by a parenthesis. *)
Definition plus_times_paren_input : list token :=
  plus_times_input ++
  [tk SEMI; tk IF; tk LPAREN; ident "y"; tk LT; number "1"; tk RPAREN].

(** *** Operator precedence in expression trees *)

(** The level of an operator: relational 0, additive 1, multiplicative 2. *)
Definition prec (op : TokenType) : nat :=
  if is_relop op then 0 else if is_addop op then 1 else 2.

(** The level of a subtree: its operator's, or 3 for a leaf or null. *)
Definition op_level (t : option TreeNode) : nat :=
  match t with
  | Some (mkNode _ _ _ _ (ExpK OpK) (AOp op)) => prec op
  | _ => 3
  end.

(** Every operator node has a left operand of level at least its own and
    a right operand of strictly higher level. *)
Fixpoint layered (t : TreeNode) : bool :=
  match t with
  | mkNode c0 c1 _ _ (ExpK OpK) (AOp op) =>
      Nat.leb (prec op) (op_level c0) && Nat.ltb (prec op) (op_level c1) &&
      match c0 with Some x => layered x | None => true end &&
      match c1 with Some x => layered x | None => true end
  | _ => true
  end.

Definition layered_opt (t : option TreeNode) : bool :=
  match t with Some x => layered x | None => true end.

(** The tokens a run from [s] to [s'] has read: from the lookahead of [s]
    up to, not including, the lookahead of [s']. *)
Definition read_tokens (s s' : state) : list token :=
  firstn (pred (pos s') - pred (pos s)) (stream s).

(** No left parenthesis among the tokens [l]. *)
Definition paren_free (l : list token) : bool :=
  forallb (fun t => negb (TokenType_beq (kind t) LPAREN)) l.

(** No left parenthesis from the lookahead of [s] up to, not including,
    position [b] of the token source. *)
Definition no_lparen (b : nat) (s : state) : Prop :=
  forall k, pred (pos s) <= k < b -> kind (nth k (toks s) eofTok) <> LPAREN.

(** *** Completeness of the tree *)

Definition req (f : TreeNode -> bool) (c : option TreeNode) : bool :=
  match c with Some x => f x | None => false end.

Definition optional (f : TreeNode -> bool) (c : option TreeNode) : bool :=
  match c with Some x => f x | None => true end.

Definition absent (c : option TreeNode) : bool :=
  match c with None => true | Some _ => false end.

Definition is_name (a : Attr) : bool :=
  match a with AName _ => true | _ => false end.

Definition no_attr (a : Attr) : bool :=
  match a with NoAttr => true | _ => false end.

Definition op_attr (a : Attr) : bool :=
  match a with AOp op => is_relop op || arith_op op | _ => false end.

Definition val_attr (a : Attr) : bool :=
  match a with AVal _ => true | _ => false end.

(** An expression node with the children and attribute of its kind. *)
Fixpoint complete_exp (t : TreeNode) : bool :=
  match t with
  | mkNode c0 c1 c2 sib (ExpK OpK) a =>
      op_attr a && req complete_exp c0 && req complete_exp c1 &&
      absent c2 && absent sib
  | mkNode c0 c1 c2 sib (ExpK ConstK) a =>
      val_attr a && absent c0 && absent c1 && absent c2 && absent sib
  | mkNode c0 c1 c2 sib (ExpK IdK) a =>
      is_name a && absent c0 && absent c1 && absent c2 && absent sib
  | _ => false
  end.

(** A statement chain: every statement has the children its kind
    requires (a nested sequence is a non-empty chain), and so has every
    statement after it on the sibling chain. *)
Fixpoint complete_stmt (t : TreeNode) : bool :=
  match t with
  | mkNode c0 c1 c2 sib (StmtK k) a =>
      match k with
      | IfK => req complete_exp c0 && req complete_stmt c1 &&
               optional complete_stmt c2 && no_attr a
      | RepeatK => req complete_stmt c0 && req complete_exp c1 &&
                   absent c2 && no_attr a
      | AssignK => req complete_exp c0 && absent c1 && absent c2 && is_name a
      | ReadK => absent c0 && absent c1 && absent c2 && is_name a
      | WriteK => req complete_exp c0 && absent c1 && absent c2 && no_attr a
      | WhileK => req complete_exp c0 && req complete_stmt c1 &&
                  absent c2 && no_attr a
      | DoWhileK => req complete_stmt c0 && req complete_exp c1 &&
                    absent c2 && no_attr a
      | ForK => req complete_exp c0 && req complete_exp c1 &&
                req complete_stmt c2 && is_name a
      end && optional complete_stmt sib
  | _ => false
  end.

(** A complete statement not (yet) linked to a sibling. *)
Definition alone (x : TreeNode) : bool := absent (sibling x) && complete_stmt x.

Definition alone_opt (r : option TreeNode) : bool :=
  match r with Some x => alone x | None => false end.

(** The number of sibling links in all the chains of a tree. *)
Fixpoint seps (t : TreeNode) : nat :=
  match t with
  | mkNode c0 c1 c2 sib _ _ =>
      match c0 with Some x => seps x | None => 0 end +
      match c1 with Some x => seps x | None => 0 end +
      match c2 with Some x => seps x | None => 0 end +
      match sib with Some x => S (seps x) | None => 0 end
  end.

Definition seps_opt (t : option TreeNode) : nat :=
  match t with Some x => seps x | None => 0 end.

Definition count_semis (l : list token) : nat :=
  length (filter (fun t => TokenType_beq (kind t) SEMI) l).

(** The scanner returns [ENDFILE] only once the source is exhausted. *)
Definition no_endfile (ts : list token) : bool :=
  forallb (fun t => negb (TokenType_beq (kind t) ENDFILE)) ts.

(** The tokens consumed so far: all fetched tokens but the lookahead. *)
Definition consumed (s : state) : list token :=
  map (fun i => nth i (toks s) eofTok) (seq 0 (pred (pos s))).

Definition cnt (s : state) : nat := count_semis (consumed s).

(** *** Chains of relational operators *)

Definition is_operand (tk : TokenType) : bool :=
  match tk with NUM | ID => true | _ => false end.

(** A pushdown automaton over consumed tokens: one flag per open
    parenthesis level (the top first), set once a relational operator was
    read at that level; [None] once a second relational operator follows
    at the same level with only operands, arithmetic operators and
    parenthesised groups in between.  Any other token resets it. *)
Definition dstep (st : option (bool * list bool)) (k : TokenType)
    : option (bool * list bool) :=
  match st with
  | None => None
  | Some (top, rest) =>
      if is_relop k then (if top then None else Some (true, rest))
      else if is_operand k || arith_op k then Some (top, rest)
      else
        match k with
        | LPAREN => Some (false, top :: rest)
        | RPAREN => match rest with b :: r => Some (b, r) | [] => Some (false, []) end
        | _ => Some (false, [])
        end
  end.

Definition dstate (s : state) : option (bool * list bool) :=
  fold_left dstep (map kind (consumed s)) (Some (false, [])).

(** A run of operands, arithmetic operators and balanced parentheses at
    parenthesis depth [d], with relational operators only inside the
    parentheses. *)
Fixpoint toplevel_run (d : nat) (w : list token) : bool :=
  match w with
  | [] => Nat.eqb d 0
  | x :: w' =>
      match kind x with
      | LPAREN => toplevel_run (S d) w'
      | RPAREN => match d with O => false | S d' => toplevel_run d' w' end
      | k => (is_operand k || arith_op k || (is_relop k && Nat.ltb 0 d)) &&
             toplevel_run d w'
      end
  end.

(** [write 1<2<3] *)
Definition chained_input : list token :=
  [tk WRITE; number "1"; tk LT; number "2"; tk LT; number "3"].

(** [x := 1; write x] *)
Definition two_stmt_input : list token :=
  [ident "x"; tk ASSIGN; number "1"; tk SEMI; tk WRITE; ident "x"].

Definition two_stmt_tree : TreeNode :=
  mkNode (Some (constant 1)) None None
    (Some (stmtNode WriteK (Some (variable "x")) None None NoAttr))
    (StmtK AssignK) (AName "x").

(** *** The invariant of error-free runs *)

(** A statement routine run without a diagnostic returns a complete
    statement, consumes as many [;] as its tree has sibling links, and
    does not complete a relational chain. *)
Definition stmt_inv (m : M (option TreeNode)) : Prop :=
  forall s r s', 1 <= pos s -> m s = Some (r, s') -> Error s' = false ->
    dstate s <> None ->
    alone_opt r = true /\ cnt s' = cnt s + seps_opt r /\ dstate s' <> None.

(** An expression routine below [exp] returns a complete expression,
    consumes no [;] and leaves the automaton where it was. *)
Definition expr_inv (m : M (option TreeNode)) : Prop :=
  forall s r s', 1 <= pos s -> m s = Some (r, s') -> Error s' = false ->
    dstate s <> None ->
    req complete_exp r = true /\ cnt s' = cnt s /\ dstate s' = dstate s.

Definition parse_inv (n : nat) : Prop :=
  (forall s r s', 1 <= pos s -> stmt_sequence n s = Some (r, s') ->
     Error s' = false -> dstate s <> None ->
     req complete_stmt r = true /\ cnt s' = cnt s + seps_opt r /\
     dstate s' <> None) /\
  (forall acc s r s', 1 <= pos s -> stmt_seq_loop n acc s = Some (r, s') ->
     Error s' = false -> dstate s <> None ->
     acc <> [] -> forallb alone acc = true ->
     req complete_stmt r = true /\
     cnt s' + seps_opt (link acc) = cnt s + seps_opt r /\ dstate s' <> None) /\
  stmt_inv (statement n) /\ stmt_inv (if_stmt n) /\ stmt_inv (repeat_stmt n) /\
  stmt_inv (assign_stmt n) /\ stmt_inv (read_stmt n) /\ stmt_inv (write_stmt n) /\
  (forall s r s' rest, 1 <= pos s -> exp n s = Some (r, s') ->
     Error s' = false -> dstate s = Some (false, rest) ->
     req complete_exp r = true /\ cnt s' = cnt s /\
     exists b, dstate s' = Some (b, rest)) /\
  expr_inv (simple_exp n) /\
  (forall t, req complete_exp t = true -> expr_inv (simple_exp_loop n t)) /\
  expr_inv (term n) /\
  (forall t, req complete_exp t = true -> expr_inv (term_loop n t)) /\
  expr_inv (factor n) /\
  stmt_inv (while_stmt n) /\ stmt_inv (dowhile_stmt n) /\ stmt_inv (for_stmt n).

(** *** Diagnostics, result shapes *)

(** Diagnostics are only appended, and all of them are the
    unexpected-token message. *)
Definition diag_ext (s s' : state) : Prop :=
  exists d, diags s' = diags s ++ d /\ Forall (eq unexpected) d.

(** Every result of [m] satisfies [P]. *)
Definition yields {A} (P : A -> Prop) (m : M A) : Prop :=
  forall s a s', m s = Some (a, s') -> P a.

Definition is_stmt_node (k : StmtKind) (r : option TreeNode) : Prop :=
  exists c0 c1 c2 a, r = Some (stmtNode k c0 c1 c2 a).

(** The statement kind [statement] dispatches to on a lookahead. *)
Definition keyword_kind (tk : TokenType) : option StmtKind :=
  match tk with
  | IF => Some IfK | REPEAT => Some RepeatK | ID => Some AssignK
  | READ => Some ReadK | WRITE => Some WriteK | WHILE => Some WhileK
  | DO => Some DoWhileK | FOR => Some ForK
  | _ => None
  end.

(** *** Printing trees as token sequences *)

(** The decimal digits of [n], most significant first, before [acc]. *)
Fixpoint nat_digits (fuel n : nat) (acc : string) : string :=
  match fuel with
  | O => acc
  | S f =>
      let acc' := String (ascii_of_nat (48 + n mod 10)) acc in
      if Nat.ltb n 10 then acc' else nat_digits f (n / 10) acc'
  end.

(** The lexeme of a non-negative number. *)
Definition num_lexeme (v : Z) : string :=
  nat_digits (S (Z.to_nat v)) (Z.to_nat v) "".

Definition name_of (a : Attr) : string :=
  match a with AName x => x | _ => "" end.

Definition op_of (a : Attr) : TokenType :=
  match a with AOp op => op | _ => ERROR end.

Definition val_of (a : Attr) : Z :=
  match a with AVal v => v | _ => 0%Z end.

(** An expression in the concrete syntax: the operands of an operator
    are parenthesised when they are operator nodes themselves. *)
Fixpoint print_exp (e : TreeNode) : list token :=
  match e with
  | mkNode c0 c1 _ _ (ExpK OpK) a =>
      match c0 with
      | Some l =>
          match nodekind l with
          | ExpK OpK => tk LPAREN :: print_exp l ++ [tk RPAREN]
          | _ => print_exp l
          end
      | None => []
      end ++ tk (op_of a) ::
      match c1 with
      | Some r =>
          match nodekind r with
          | ExpK OpK => tk LPAREN :: print_exp r ++ [tk RPAREN]
          | _ => print_exp r
          end
      | None => []
      end
  | mkNode _ _ _ _ (ExpK ConstK) a => [number (num_lexeme (val_of a))]
  | mkNode _ _ _ _ (ExpK IdK) a => [ident (name_of a)]
  | mkNode _ _ _ _ (StmtK _) _ => []
  end.

(** An expression as an operand: in parentheses when it is an operator
    node. *)
Definition print_operand (e : TreeNode) : list token :=
  match nodekind e with
  | ExpK OpK => tk LPAREN :: print_exp e ++ [tk RPAREN]
  | _ => print_exp e
  end.

Definition print_exp_opt (c : option TreeNode) : list token :=
  match c with Some e => print_exp e | None => [] end.

Definition print_operand_opt (c : option TreeNode) : list token :=
  match c with Some e => print_operand e | None => [] end.

(** A statement chain in the concrete syntax, statements separated by
    [;]; the bounds of a [for] loop are printed as operands and its
    direction as [to]. *)
Fixpoint print_stmt (t : TreeNode) : list token :=
  match t with
  | mkNode c0 c1 c2 sib (StmtK k) a =>
      match k with
      | IfK =>
          tk IF :: tk LPAREN :: print_exp_opt c0 ++ tk RPAREN :: tk THEN ::
          match c1 with Some x => print_stmt x | None => [] end ++
          match c2 with Some x => tk ELSE :: print_stmt x | None => [] end ++
          [tk END]
      | RepeatK =>
          tk REPEAT :: match c0 with Some x => print_stmt x | None => [] end ++
          tk UNTIL :: print_exp_opt c1
      | AssignK => ident (name_of a) :: tk ASSIGN :: print_exp_opt c0
      | ReadK => [tk READ; ident (name_of a)]
      | WriteK => tk WRITE :: print_exp_opt c0
      | WhileK =>
          tk WHILE :: print_exp_opt c0 ++ tk DO ::
          match c1 with Some x => print_stmt x | None => [] end ++
          [tk ENDWHILE]
      | DoWhileK =>
          tk DO :: match c0 with Some x => print_stmt x | None => [] end ++
          tk WHILE :: tk LPAREN :: print_exp_opt c1 ++ [tk RPAREN]
      | ForK =>
          tk FOR :: ident (name_of a) :: tk ASSIGN :: print_operand_opt c0 ++
          tk TO :: print_operand_opt c1 ++ tk DO ::
          match c2 with Some x => print_stmt x | None => [] end ++
          [tk ENDDO]
      end ++
      match sib with Some u => tk SEMI :: print_stmt u | None => [] end
  | _ => []
  end.

(** Every constant of the tree is non-negative, as the scanner's numbers
    are. *)
Fixpoint consts_nonneg (t : TreeNode) : bool :=
  match t with
  | mkNode c0 c1 c2 sib _ a =>
      match a with AVal v => Z.leb 0 v | _ => true end &&
      match c0 with Some x => consts_nonneg x | None => true end &&
      match c1 with Some x => consts_nonneg x | None => true end &&
      match c2 with Some x => consts_nonneg x | None => true end &&
      match sib with Some x => consts_nonneg x | None => true end
  end.

(** The statements of a chain, each cut off from its successor. *)
Fixpoint chain_nodes (t : TreeNode) : list TreeNode :=
  set_sibling t None ::
  match t with mkNode _ _ _ (Some u) _ _ => chain_nodes u | _ => [] end.

(** The tokens that may follow a statement in a sequence. *)
Definition stmt_follow (k : TokenType) : bool := TokenType_beq k SEMI || seq_end k.

(** With enough fuel, [m] reads exactly the tokens [L] in front of [rest]
    and returns [v]. *)
Definition reads {A} (m : nat -> M A) (L rest : list token) (v : A) : Prop :=
  forall s, 1 <= pos s -> stream s = L ++ rest ->
  exists n, forall k, n <= k -> m k s = Some (v, Nat.iter (length L) advance s).

(** [read x; if (x < 10) then x := (x + 1) * 2 else write x end;
    for i := 1 to (x - 1) do write i * i enddo] as a tree. *)
Definition print_sample_tree : TreeNode :=
  mkNode None None None
    (Some (mkNode
       (Some (binop LT (variable "x") (constant 10)))
       (Some (stmtNode AssignK
                (Some (binop TIMES (binop PLUS (variable "x") (constant 1))
                               (constant 2))) None None (AName "x")))
       (Some (stmtNode WriteK (Some (variable "x")) None None NoAttr))
       (Some (stmtNode ForK (Some (constant 1))
                (Some (binop MINUS (variable "x") (constant 1)))
                (Some (stmtNode WriteK
                         (Some (binop TIMES (variable "i") (variable "i")))
                         None None NoAttr))
                (AName "i")))
       (StmtK IfK) NoAttr))
    (StmtK ReadK) (AName "x").

(** [x + 2 * 3] as a tree. *)
Definition print_sample_exp : TreeNode :=
  binop PLUS (variable "x") (binop TIMES (constant 2) (constant 3)).

(** ** Proof infrastructure *)

(** All routines at one fuel level, for proofs by induction on the fuel. *)
Definition for_all_routines (P : M (option TreeNode) -> Prop) (n : nat) : Prop :=
  P (stmt_sequence n) /\ (forall acc, P (stmt_seq_loop n acc)) /\
  P (statement n) /\ P (if_stmt n) /\ P (repeat_stmt n) /\
  P (assign_stmt n) /\ P (read_stmt n) /\ P (write_stmt n) /\
  P (exp n) /\ P (simple_exp n) /\ (forall t, P (simple_exp_loop n t)) /\
  P (term n) /\ (forall t, P (term_loop n t)) /\ P (factor n) /\
  P (while_stmt n) /\ P (dowhile_stmt n) /\ P (for_stmt n).

(** A relation between the states before and after every run of [m]. *)
Definition preserves (R : state -> state -> Prop) {A} (m : M A) : Prop :=
  forall s a s', m s = Some (a, s') -> R s s'.

(** The frame of every run: same token source, cursor moves forward,
    messages are only appended, and [Error] is set exactly when some message
    was written. *)
Definition frame (s s' : state) : Prop :=
  toks s' = toks s /\ pos s <= pos s' /\
  exists d, diags s' = diags s ++ d /\
            (Error s' = true <-> Error s = true \/ d <> []).

(** [m1] returns what [m2] returns whenever [m1] returns. *)
Definition le_M {A} (m1 m2 : M A) : Prop :=
  forall s r, m1 s = Some r -> m2 s = Some r.

Definition routines_le (n m : nat) : Prop :=
  le_M (stmt_sequence n) (stmt_sequence m) /\
  (forall acc, le_M (stmt_seq_loop n acc) (stmt_seq_loop m acc)) /\
  le_M (statement n) (statement m) /\ le_M (if_stmt n) (if_stmt m) /\
  le_M (repeat_stmt n) (repeat_stmt m) /\ le_M (assign_stmt n) (assign_stmt m) /\
  le_M (read_stmt n) (read_stmt m) /\ le_M (write_stmt n) (write_stmt m) /\
  le_M (exp n) (exp m) /\ le_M (simple_exp n) (simple_exp m) /\
  (forall t, le_M (simple_exp_loop n t) (simple_exp_loop m t)) /\
  le_M (term n) (term m) /\ (forall t, le_M (term_loop n t) (term_loop m t)) /\
  le_M (factor n) (factor m) /\ le_M (while_stmt n) (while_stmt m) /\
  le_M (dowhile_stmt n) (dowhile_stmt m) /\ le_M (for_stmt n) (for_stmt m).

(** Tokens not yet handed out by the scanner, counting the current one. *)
Definition mu (s : state) : nat := length (toks s) + 1 - pos s.

Ltac split_routines H :=
  destruct H as (Hseq & Hloop & Hstmt & Hif & Hrep & Hasg & Hread & Hwrite &
                 Hexp & Hsexp & Hsloop & Hterm & Htloop & Hfac & Hwhile &
                 Hdo & Hfor).

(** *** Relations preserved by every routine *)

Section Preservation.

Variable R : state -> state -> Prop.
Hypothesis R_refl : forall s, R s s.
Hypothesis R_trans : forall s1 s2 s3, R s1 s2 -> R s2 s3 -> R s1 s3.
Hypothesis R_advance : forall s, R s (advance s).
Hypothesis R_error : forall msg s, R s (record_error msg s).


Lemma pres_ret {A} (a : A) : preserves R (ret a).
Proof. intros s b s' H. injection H as _ <-. apply R_refl. Qed.

Lemma pres_bind {A B} (m : M A) (k : A -> M B) :
  preserves R m -> (forall a, preserves R (k a)) -> preserves R (bind m k).
Proof.
  intros Hm Hk s b s' H. unfold bind in H.
  destruct (m s) as [[a s1]|] eqn:E; [|discriminate].
  eapply R_trans; [eapply Hm; exact E | eapply Hk; exact H].
Qed.

Lemma pres_fail {A} : preserves R (@out_of_fuel A).
Proof. intros s a s' H. discriminate. Qed.

Lemma pres_token_kind : preserves R token_kind.
Proof. intros s a s' H. injection H as _ <-. apply R_refl. Qed.

Lemma pres_tokenString : preserves R tokenString.
Proof. intros s a s' H. injection H as _ <-. apply R_refl. Qed.

Lemma pres_getToken : preserves R getToken.
Proof. intros s a s' H. injection H as _ <-. apply R_advance. Qed.

Lemma pres_syntaxError msg : preserves R (syntaxError msg).
Proof. intros s a s' H. injection H as _ <-. apply R_error. Qed.

Lemma pres_match e : preserves R (match_ e).
Proof.
  apply pres_bind; [apply pres_token_kind|]. intro tk.
  destruct (TokenType_beq tk e); [apply pres_getToken | apply pres_syntaxError].
Qed.

Ltac pres_step :=
  first
    [ apply pres_bind; [| intro]
    | apply pres_ret | apply pres_fail | apply pres_token_kind
    | apply pres_tokenString | apply pres_getToken | apply pres_syntaxError
    | apply pres_match
    | match goal with
      | |- preserves _ (if ?b then _ else _) => destruct b
      | |- preserves _ (match ?t with _ => _ end) => destruct t
      end
    | assumption
    | match goal with H : forall x, preserves _ _ |- _ => apply H end ].

Lemma routines_preserve : forall n, for_all_routines (preserves R) n.
Proof.
  induction n as [|n IH].
  - repeat split; intros; apply pres_fail.
  - split_routines IH.
    repeat split; intros; simpl; repeat pres_step.
Qed.

Lemma parse_body_preserves n : preserves R (parse_body n).
Proof.
  pose proof (routines_preserve n) as IH. split_routines IH.
  unfold parse_body. repeat pres_step.
Qed.

End Preservation.

Lemma frame_refl s : frame s s.
Proof.
  split; [reflexivity|split; [lia|]]. exists []. rewrite app_nil_r.
  split; [reflexivity|]. intuition congruence.
Qed.

Lemma frame_trans s1 s2 s3 : frame s1 s2 -> frame s2 s3 -> frame s1 s3.
Proof.
  intros (T1 & P1 & d1 & D1 & E1) (T2 & P2 & d2 & D2 & E2).
  split; [congruence|split; [lia|]]. exists (d1 ++ d2).
  split; [rewrite D2, D1, app_assoc; reflexivity|].
  rewrite E2, E1. split.
  - intros [[H|H]|H]; [left; exact H| |]; right; intro C;
      apply app_eq_nil in C; destruct C; contradiction.
  - intros [H|H]; [left; left; exact H|].
    destruct d1; [destruct d2; [contradiction|right; discriminate]|].
    left; right; discriminate.
Qed.

Lemma frame_advance s : frame s (advance s).
Proof.
  split; [reflexivity|split; [simpl; lia|]]. exists []. rewrite app_nil_r.
  split; [reflexivity|]. simpl. intuition congruence.
Qed.

Lemma frame_error msg s : frame s (record_error msg s).
Proof.
  split; [reflexivity|split; [simpl; lia|]]. exists [msg].
  split; [reflexivity|]. simpl. intuition discriminate.
Qed.

Lemma routines_frame n : for_all_routines (preserves frame) n.
Proof.
  exact (routines_preserve frame frame_refl frame_trans frame_advance
            frame_error n).
Qed.

(** *** More fuel never changes a result *)


Lemma le_refl {A} (m : M A) : le_M m m.
Proof. intros s r H. exact H. Qed.

Lemma le_bind {A B} (m1 m2 : M A) (k1 k2 : A -> M B) :
  le_M m1 m2 -> (forall a, le_M (k1 a) (k2 a)) -> le_M (bind m1 k1) (bind m2 k2).
Proof.
  intros Hm Hk s r H. unfold bind in *.
  destruct (m1 s) as [[a s1]|] eqn:E; [|discriminate].
  rewrite (Hm _ _ E). apply Hk. exact H.
Qed.

Lemma le_fail {A} (m : M A) : le_M out_of_fuel m.
Proof. intros s r H. discriminate. Qed.


Ltac le_step :=
  first
    [ apply le_refl
    | apply le_bind; [| intro]
    | match goal with
      | |- le_M (if ?b then _ else _) _ => destruct b
      | |- le_M (match ?t with _ => _ end) _ => destruct t
      end
    | assumption
    | match goal with H : forall x, le_M _ _ |- _ => apply H end ].

Lemma routines_mono : forall n m, n <= m -> routines_le n m.
Proof.
  induction n as [|n IH]; intros m Hle.
  - repeat split; intros; apply le_fail.
  - destruct m as [|m]; [lia|].
    assert (IHm : routines_le n m) by (apply IH; lia).
    split_routines IHm.
    repeat split; intros; simpl; repeat le_step.
Qed.

Lemma parse_body_mono n m : n <= m -> le_M (parse_body n) (parse_body m).
Proof.
  intros Hle. pose proof (routines_mono n m Hle) as IH. split_routines IH.
  unfold parse_body. repeat le_step.
Qed.

Lemma parse_fuel_mono n m ts r :
  n <= m -> parse_fuel n ts = Some r -> parse_fuel m ts = Some r.
Proof. intros Hle. apply (parse_body_mono n m Hle). Qed.

(** *** Token facts *)

Lemma beq_true a b : TokenType_beq a b = true -> a = b.
Proof. destruct a, b; simpl; congruence. Qed.

Lemma beq_refl a : TokenType_beq a a = true.
Proof. destruct a; reflexivity. Qed.

Lemma beq_false a b : TokenType_beq a b = false -> a <> b.
Proof. intros H ->. rewrite beq_refl in H. discriminate. Qed.

(** A token other than [ENDFILE] comes from the token list itself. *)
Lemma cur_real s : kind (cur s) <> ENDFILE -> pos s <= length (toks s).
Proof.
  unfold cur. intros H.
  destruct (le_lt_dec (length (toks s)) (pred (pos s))) as [L|L]; [|lia].
  rewrite nth_overflow in H by exact L. simpl in H. congruence.
Qed.

Lemma cur_record msg s : cur (record_error msg s) = cur s.
Proof. reflexivity. Qed.

Ltac frame_step :=
  first
    [ apply (pres_bind frame frame_trans); [| intro]
    | apply (pres_ret frame frame_refl) | apply (pres_fail frame)
    | apply (pres_token_kind frame frame_refl)
    | apply (pres_tokenString frame frame_refl)
    | apply (pres_getToken frame frame_advance)
    | apply (pres_syntaxError frame frame_error)
    | apply (pres_match frame frame_refl frame_trans frame_advance frame_error)
    | match goal with
      | |- preserves frame (if ?b then _ else _) => destruct b
      | |- preserves frame (match ?t with _ => _ end) => destruct t
      end
    | assumption
    | match goal with H : forall x, preserves frame _ |- _ => apply H end ].

Lemma bind_token_kind {A} (k : TokenType -> M A) s :
  bind token_kind k s = k (kind (cur s)) s.
Proof. reflexivity. Qed.

Lemma bind_tokenString {A} (k : string -> M A) s :
  bind tokenString k s = k (lexeme (cur s)) s.
Proof. reflexivity. Qed.

Lemma match_hit {A} e (k : unit -> M A) s :
  kind (cur s) = e -> bind (match_ e) k s = k tt (advance s).
Proof.
  intros K. unfold bind at 1, match_. rewrite bind_token_kind, K, beq_refl.
  reflexivity.
Qed.

Lemma match_miss {A} e (k : unit -> M A) s :
  kind (cur s) <> e -> bind (match_ e) k s = k tt (record_error unexpected s).
Proof.
  intros K. unfold bind at 1, match_. rewrite bind_token_kind.
  destruct (TokenType_beq (kind (cur s)) e) eqn:B.
  - apply beq_true in B. contradiction.
  - reflexivity.
Qed.

(** [statement] always consumes a token that is not [ENDFILE]. *)
Lemma statement_progress n s r s' :
  statement n s = Some (r, s') -> kind (cur s) <> ENDFILE -> pos s < pos s'.
Proof.
  intros H NE. destruct n as [|n]; [discriminate|].
  cbn [statement] in H. rewrite bind_token_kind in H.
  destruct n as [|n];
    [destruct (kind (cur s)); try discriminate;
     injection H as _ <-; simpl; lia|].
  pose proof (routines_frame n) as FR. split_routines FR.
  destruct (kind (cur s)) eqn:K;
    try (injection H as _ <-; simpl; lia);
    cbn [if_stmt repeat_stmt assign_stmt read_stmt write_stmt while_stmt
         dowhile_stmt for_stmt] in H;
    try rewrite bind_token_kind, bind_tokenString in H;
    rewrite match_hit in H by exact K;
    match type of H with
    | ?m (advance s) = Some _ =>
        assert (Hm : preserves frame m) by (repeat frame_step);
        destruct (Hm _ _ _ H) as (_ & P & _); simpl in P; lia
    end.
Qed.

(** *** Termination: a budget linear in the number of tokens suffices *)


Lemma bind_ret {A B} (a : A) (k : A -> M B) s : bind (ret a) k s = k a s.
Proof. reflexivity. Qed.

Lemma bind_getToken {A} (k : unit -> M A) s :
  bind getToken k s = k tt (advance s).
Proof. reflexivity. Qed.

Lemma bind_syntaxError {A} msg (k : unit -> M A) s :
  bind (syntaxError msg) k s = k tt (record_error msg s).
Proof. reflexivity. Qed.

Lemma bind_match {A} e (k : unit -> M A) s :
  bind (match_ e) k s =
  if TokenType_beq (kind (cur s)) e then k tt (advance s)
  else k tt (record_error unexpected s).
Proof.
  unfold bind at 1, match_. rewrite bind_token_kind.
  destruct (TokenType_beq (kind (cur s)) e); reflexivity.
Qed.

Lemma bind_assoc {A B C} (m : M A) (k1 : A -> M B) (k2 : B -> M C) s :
  bind (bind m k1) k2 s = bind m (fun x => bind (k1 x) k2) s.
Proof. unfold bind. destruct (m s) as [[a s1]|]; reflexivity. Qed.

(** [pos s <= length (toks s)] for every state whose token is known not to
    be [ENDFILE] from some hypothesis. *)
Ltac real_facts :=
  repeat match goal with
  | H : context [kind (cur ?s)] |- _ =>
      lazymatch goal with
      | _ : pos s <= length (toks s) |- _ => fail
      | _ => assert (pos s <= length (toks s))
               by (apply cur_real; let HZ := fresh "HZ" in intro HZ; rewrite HZ in H; simpl in H;
                   discriminate)
      end
  end.

(** Frame facts about a finished sub-call. *)
Ltac call_facts E :=
  match type of E with
  | _ ?s1 = Some (_, ?s2) =>
      let F := fresh "F" in
      assert (F : frame s1 s2)
        by (match goal with H : _ |- _ => eapply H; exact E end);
      let T := fresh "T" in let P := fresh "P" in
      destruct F as (T & P & _);
      apply (f_equal (@length token)) in T;
      cbn [toks pos advance record_error] in T, P;
      try (let Q := fresh "Q" in
           assert (Q : pos s1 < pos s2)
             by (apply (statement_progress _ _ _ _ E); rewrite ?cur_record;
                 let HZ := fresh "HZ" in intro HZ;
                 match goal with H : seq_end _ = false |- _ =>
                   rewrite HZ in H; discriminate end);
           cbn [pos advance record_error] in Q)
  end.

Ltac arith :=
  real_facts; unfold mu in *; cbn [toks pos advance record_error] in *; lia.

Ltac total_step :=
  match goal with
  | |- bind (bind _ _) _ _ <> None => rewrite bind_assoc
  | |- bind token_kind _ _ <> None => rewrite bind_token_kind
  | |- bind tokenString _ _ <> None => rewrite bind_tokenString
  | |- bind (ret _) _ _ <> None => rewrite bind_ret
  | |- bind getToken _ _ <> None => rewrite bind_getToken
  | |- bind (syntaxError _) _ _ <> None => rewrite bind_syntaxError
  | |- bind (match_ (kind (cur ?s))) _ ?s <> None =>
      rewrite match_hit by reflexivity
  | |- bind (match_ ?e) _ ?s <> None => rewrite match_hit by assumption
  | |- bind (match_ ?e) _ ?s <> None =>
      rewrite bind_match; destruct (TokenType_beq (kind (cur s)) e) eqn:?
  | |- bind (if ?b then _ else _) _ _ <> None => destruct b eqn:?
  | |- bind ?m _ ?s <> None =>
      let E := fresh "E" in
      unfold bind at 1; destruct (m s) as [[? ?]|] eqn:E;
      [call_facts E
      | exfalso; match goal with T : forall s, _ |- _ =>
          eapply T; [..| exact E]; solve [eassumption | arith] end]
  | |- ret _ _ <> None => discriminate
  | |- (if ?b then _ else _) _ <> None => destruct b eqn:?
  | |- (match ?t with _ => _ end) _ <> None => destruct t eqn:?
  | |- _ <> None => eapply (fun H => H); solve [eassumption | arith]
  | |- _ <> None => match goal with T : forall s, _ |- _ =>
          eapply T; solve [eassumption | arith] end
  end; cbv beta.

Lemma routines_total : forall n,
  (forall s, 4 * mu s + 4 <= n -> stmt_sequence n s <> None) /\
  (forall s acc, 4 * mu s + 3 <= n -> stmt_seq_loop n acc s <> None) /\
  (forall s, 4 * mu s + 2 <= n -> statement n s <> None) /\
  (forall s, kind (cur s) = IF -> 4 * mu s + 1 <= n -> if_stmt n s <> None) /\
  (forall s, kind (cur s) = REPEAT -> 4 * mu s + 1 <= n ->
             repeat_stmt n s <> None) /\
  (forall s, kind (cur s) = ID -> 4 * mu s + 1 <= n -> assign_stmt n s <> None) /\
  (forall s, kind (cur s) = READ -> 4 * mu s + 1 <= n -> read_stmt n s <> None) /\
  (forall s, kind (cur s) = WRITE -> 4 * mu s + 1 <= n ->
             write_stmt n s <> None) /\
  (forall s, 4 * mu s + 4 <= n -> exp n s <> None) /\
  (forall s, 4 * mu s + 3 <= n -> simple_exp n s <> None) /\
  (forall s t, 4 * mu s + 1 <= n -> simple_exp_loop n t s <> None) /\
  (forall s, 4 * mu s + 2 <= n -> term n s <> None) /\
  (forall s t, 4 * mu s + 1 <= n -> term_loop n t s <> None) /\
  (forall s, 4 * mu s + 1 <= n -> factor n s <> None) /\
  (forall s, kind (cur s) = WHILE -> 4 * mu s + 1 <= n ->
             while_stmt n s <> None) /\
  (forall s, kind (cur s) = DO -> 4 * mu s + 1 <= n ->
             dowhile_stmt n s <> None) /\
  (forall s, kind (cur s) = FOR -> 4 * mu s + 1 <= n -> for_stmt n s <> None).
Proof.
  induction n as [|n IH].
  - repeat split; intros; lia.
  - pose proof (routines_frame n) as FR. split_routines FR.
    destruct IH as (Tseq & Tloop & Tstmt & Tif & Trep & Tasg & Tread & Twrite &
                    Texp & Tsexp & Tsloop & Tterm & Ttloop & Tfac & Twhile &
                    Tdo & Tfor).
    repeat split; intros; cbn [stmt_sequence stmt_seq_loop statement if_stmt
      repeat_stmt assign_stmt read_stmt write_stmt exp simple_exp
      simple_exp_loop term term_loop factor while_stmt dowhile_stmt for_stmt];
      try (match goal with K : kind (cur _) = _ |- _ =>
             rewrite ?bind_token_kind, ?bind_tokenString;
             rewrite match_hit by exact K end);
      repeat total_step.
Qed.

Lemma parse_fuel_total ts : parse_fuel (budget ts) ts <> None.
Proof.
  destruct (routines_total (budget ts)) as (Tseq & _).
  unfold parse_fuel, parse_body. rewrite bind_getToken. cbv beta.
  unfold bind at 1.
  destruct (stmt_sequence (budget ts) (advance (init ts))) as [[t s1]|] eqn:E.
  - rewrite bind_token_kind.
    destruct (TokenType_beq (kind (cur s1)) ENDFILE); discriminate.
  - exfalso. eapply Tseq; [|exact E]. unfold mu, budget. simpl. lia.
Qed.

(** ** Claims *)

(** C8: [parse] terminates on every finite token source, malformed inputs
    included: with a recursion budget linear in the number of tokens every
    routine returns, and any larger budget gives the same result. *)
Theorem parse_terminates (ts : list token) :
  exists r, forall k, parse_fuel (budget ts + k) ts = Some r.
Proof.
  pose proof (parse_fuel_total ts) as H.
  destruct (parse_fuel (budget ts) ts) as [r|] eqn:E; [|contradiction].
  exists r. intro k. apply (parse_fuel_mono (budget ts)); [lia | exact E].
Qed.

(** C9: parsing is deterministic: two runs over the same token sequence,
    each from a fresh cursor and a cleared flag, give the same tree (variant,
    attribute, children and siblings everywhere) and the same flag and
    messages, whatever budgets they were given. *)
Theorem parse_deterministic (ts : list token) (n1 n2 : nat)
    (t1 t2 : option TreeNode) (s1 s2 : state) :
  parse_fuel n1 ts = Some (t1, s1) -> parse_fuel n2 ts = Some (t2, s2) ->
  t1 = t2 /\ Error s1 = Error s2 /\ diags s1 = diags s2.
Proof.
  intros H1 H2.
  destruct (le_ge_dec n1 n2) as [L|L].
  - rewrite (parse_fuel_mono n1 n2 ts _ L H1) in H2. injection H2 as -> ->.
    auto.
  - rewrite (parse_fuel_mono n2 n1 ts _ L H2) in H1. injection H1 as -> ->.
    auto.
Qed.

(** C6: [match] advances exactly one token on the expected kind; on any
    other kind it writes a message, sets [Error] and leaves the cursor
    where it is.  The default branches of [statement] and [factor] write a
    message and advance exactly one token. *)
Theorem cursor_movement (e : TokenType) (s : state) :
  (kind (cur s) = e ->
     exists s', match_ e s = Some (tt, s') /\ pos s' = S (pos s) /\
                toks s' = toks s /\ Error s' = Error s /\ diags s' = diags s) /\
  (kind (cur s) <> e ->
     exists s', match_ e s = Some (tt, s') /\ pos s' = pos s /\
                toks s' = toks s /\ Error s' = true /\
                diags s' = diags s ++ [unexpected]) /\
  (starts_statement (kind (cur s)) = false -> forall n,
     exists s', statement (S n) s = Some (None, s') /\ pos s' = S (pos s) /\
                toks s' = toks s /\ Error s' = true /\
                diags s' = diags s ++ [unexpected]) /\
  (starts_factor (kind (cur s)) = false -> forall n,
     exists s', factor (S n) s = Some (None, s') /\ pos s' = S (pos s) /\
                toks s' = toks s /\ Error s' = true /\
                diags s' = diags s ++ [unexpected]).
Proof.
  split; [|split; [|split]].
  - intros K. exists (advance s). unfold match_. rewrite bind_token_kind, K, beq_refl.
    repeat split.
  - intros K. exists (record_error unexpected s). unfold match_.
    rewrite bind_token_kind.
    destruct (TokenType_beq (kind (cur s)) e) eqn:B;
      [apply beq_true in B; contradiction|].
    repeat split.
  - intros K n. exists (advance (record_error unexpected s)).
    cbn [statement]. rewrite bind_token_kind.
    destruct (kind (cur s)); try discriminate K; repeat split.
  - intros K n. exists (advance (record_error unexpected s)).
    cbn [factor]. rewrite bind_token_kind.
    destruct (kind (cur s)); try discriminate K; repeat split.
Qed.

(** C7: [parse] fetches the first token, runs [stmt_sequence] once, writes
    the trailing-input message exactly when the token after it is not
    [ENDFILE], and returns the tree of the sequence in every case. *)
Theorem parse_structure (n : nat) (ts : list token) :
  cur (advance (init ts)) = nth 0 ts eofTok /\
  parse_fuel n ts =
    match stmt_sequence n (advance (init ts)) with
    | Some (t, s1) =>
        Some (t, if TokenType_beq (kind (cur s1)) ENDFILE then s1
                 else record_error code_ends s1)
    | None => None
    end.
Proof.
  split; [reflexivity|].
  unfold parse_fuel, parse_body. rewrite bind_getToken. cbv beta.
  unfold bind at 1.
  destruct (stmt_sequence n (advance (init ts))) as [[t s1]|]; [|reflexivity].
  rewrite bind_token_kind.
  destruct (TokenType_beq (kind (cur s1)) ENDFILE); reflexivity.
Qed.

(** C10 (as amended): [stmt_sequence] parses a first statement before it
    looks at the terminators.  When the sequence position holds a
    terminator other than [while], it writes the unrecognized-statement
    message and consumes that token, instead of returning an empty
    sequence; a [while] there is parsed as the start of a while statement,
    with no message from the dispatch. *)
Theorem empty_sequence_consumes_terminator (n : nat) (s : state) :
  seq_end (kind (cur s)) = true ->
  stmt_sequence (S (S n)) s =
    if TokenType_beq (kind (cur s)) WHILE
    then bind (while_stmt n) (fun t => stmt_seq_loop (S n) (opt_list t)) s
    else stmt_seq_loop (S n) [] (advance (record_error unexpected s)).
Proof.
  intros K. cbn [stmt_sequence statement]. unfold bind at 1.
  rewrite bind_token_kind.
  destruct (kind (cur s)); try discriminate K; reflexivity.
Qed.

Lemma empty_sequence_consumes_terminator_witness :
  seq_end (kind (cur (advance (init [tk END])))) = true /\
  stmt_sequence 2 (advance (init [tk END])) =
    stmt_seq_loop 1 [] (advance (record_error unexpected
                                   (advance (init [tk END])))) /\
  seq_end (kind (cur (advance (init [tk WHILE])))) = true /\
  stmt_sequence 2 (advance (init [tk WHILE])) =
    bind (while_stmt 0) (fun t => stmt_seq_loop 1 (opt_list t))
         (advance (init [tk WHILE])).
Proof.
  assert (K : seq_end (kind (cur (advance (init [tk END])))) = true)
    by reflexivity.
  assert (KW : seq_end (kind (cur (advance (init [tk WHILE])))) = true)
    by reflexivity.
  split; [exact K | split; [exact (empty_sequence_consumes_terminator 0 _ K)|]].
  split; [exact KW|].
  exact (empty_sequence_consumes_terminator 0 _ KW).
Defined.

(** C10 as first stated fails: [while] is a terminator, yet at the head of
    the body of a do-while it starts a while statement, and the whole input
    parses with no message at all. *)
Lemma empty_sequence_counterexample :
  seq_end (kind (nth 1 do_while_input eofTok)) = true /\
  exists t s, parse do_while_input = Some (t, s) /\
              Error s = false /\ diags s = [].
Proof.
  split; [reflexivity|].
  vm_compute. eexists _, _. split; [reflexivity|]. split; reflexivity.
Qed.

(** C1: the conforming loop parses to the expected [For] node; but the
    direction keyword is never required: with neither [to] nor [downto], or
    with both in a row, the loop parses to the same node and no message is
    written. *)
Theorem for_direction_not_checked :
  (exists s, parse for_to_input = Some (Some for_tree, s) /\
             Error s = false /\ diags s = []) /\
  (exists s, parse for_nodir_input = Some (Some for_tree, s) /\
             Error s = false /\ diags s = []) /\
  (exists s, parse for_both_input = Some (Some for_tree, s) /\
             Error s = false /\ diags s = []).
Proof.
  split; [|split]; vm_compute; eexists; (split; [reflexivity|]);
    split; reflexivity.
Qed.

Lemma parse_deterministic_witness :
  exists t s,
    parse_fuel 44 for_to_input = Some (t, s) /\
    parse_fuel 60 for_to_input = Some (t, s) /\
    (t = t /\ Error s = Error s /\ diags s = diags s).
Proof.
  assert (H1 : parse_fuel 44 for_to_input =
               Some (Some for_tree,
                     mkState for_to_input 11 false [])) by (vm_compute; reflexivity).
  assert (H2 : parse_fuel 60 for_to_input =
               Some (Some for_tree,
                     mkState for_to_input 11 false [])) by (vm_compute; reflexivity).
  exists (Some for_tree), (mkState for_to_input 11 false []).
  split; [exact H1 | split; [exact H2|]].
  exact (parse_deterministic for_to_input 44 60 _ _ _ _ H1 H2).
Defined.

(** *** The stream view of the cursor *)

Lemma nth_skipn_0 {A} k (l : list A) d : nth 0 (skipn k l) d = nth k l d.
Proof.
  revert l. induction k as [|k IH]; intros [|x l]; simpl; auto.
Qed.

Lemma cur_stream s : cur s = hd eofTok (stream s).
Proof.
  unfold cur, stream. rewrite <- nth_skipn_0.
  destruct (skipn (pred (pos s)) (toks s)); reflexivity.
Qed.

Lemma skipn_S_tl {A} k (l : list A) : skipn (S k) l = tl (skipn k l).
Proof.
  revert l. induction k as [|k IH]; intros [|x l]; simpl; auto.
  rewrite <- IH. reflexivity.
Qed.

Lemma stream_advance s : 1 <= pos s -> stream (advance s) = tl (stream s).
Proof.
  intros P. unfold stream. simpl.
  destruct (pos s) as [|p]; [lia|]. simpl. apply skipn_S_tl.
Qed.

Lemma stream_record msg s : stream (record_error msg s) = stream s.
Proof. reflexivity. Qed.

Lemma stream_iter k s :
  1 <= pos s -> stream (Nat.iter k advance s) = skipn k (stream s).
Proof.
  intros P. induction k as [|k IH]; [reflexivity|].
  change (Nat.iter (S k) advance s) with (advance (Nat.iter k advance s)).
  rewrite stream_advance.
  - rewrite IH, skipn_S_tl. reflexivity.
  - clear IH. induction k; simpl in *; lia.
Qed.

Lemma cur_iter k s :
  1 <= pos s -> cur (Nat.iter k advance s) = nth k (stream s) eofTok.
Proof.
  intros P. rewrite cur_stream, stream_iter by exact P.
  rewrite <- nth_skipn_0. destruct (skipn k (stream s)); reflexivity.
Qed.

Lemma operand_kind t :
  operand t = true -> kind t = NUM \/ kind t = ID.
Proof. unfold operand. destruct (kind t); auto; discriminate. Qed.

Lemma addop_kind tk : is_addop tk = true -> tk = PLUS \/ tk = MINUS.
Proof. destruct tk; simpl; auto; discriminate. Qed.

Lemma mulop_kind tk :
  is_mulop tk = true -> tk = TIMES \/ tk = OVER \/ tk = MOD.
Proof. destruct tk; simpl; auto; discriminate. Qed.

Lemma arith_op_false tk :
  arith_op tk = false -> is_addop tk = false /\ is_mulop tk = false.
Proof. unfold arith_op. destruct (is_addop tk), (is_mulop tk); auto. Qed.

Lemma factor_operand n s :
  operand (cur s) = true ->
  factor (S n) s = Some (Some (leaf (cur s)), advance s).
Proof.
  intros H. cbn [factor]. rewrite bind_token_kind. unfold operand, leaf in *.
  destruct (kind (cur s)) eqn:K; try discriminate;
    rewrite bind_tokenString, match_hit by exact K; reflexivity.
Qed.

Lemma term_S n s : term (S n) s = bind (factor n) (term_loop n) s.
Proof. reflexivity. Qed.

Lemma simple_exp_S n s :
  simple_exp (S n) s = bind (term n) (simple_exp_loop n) s.
Proof. reflexivity. Qed.

Lemma term_loop_stop n t s :
  is_mulop (kind (cur s)) = false -> term_loop (S n) t s = Some (t, s).
Proof. intros H. cbn [term_loop]. rewrite bind_token_kind, H. reflexivity. Qed.

Lemma term_loop_step n t c s s1 :
  is_mulop (kind (cur s)) = true -> factor n (advance s) = Some (c, s1) ->
  term_loop (S n) t s =
  term_loop n (Some (expNode OpK t c (AOp (kind (cur s))))) s1.
Proof.
  intros H F. cbn [term_loop].
  rewrite bind_token_kind, H, match_hit by reflexivity.
  unfold bind at 1. rewrite F. reflexivity.
Qed.

Lemma simple_exp_loop_stop n t s :
  is_addop (kind (cur s)) = false -> simple_exp_loop (S n) t s = Some (t, s).
Proof.
  intros H. cbn [simple_exp_loop]. rewrite bind_token_kind, H. reflexivity.
Qed.

Lemma simple_exp_loop_step n t c s s1 :
  is_addop (kind (cur s)) = true -> term n (advance s) = Some (c, s1) ->
  simple_exp_loop (S n) t s =
  simple_exp_loop n (Some (expNode OpK t c (AOp (kind (cur s))))) s1.
Proof.
  intros H F. cbn [simple_exp_loop].
  rewrite bind_token_kind, H, match_hit by reflexivity.
  unfold bind at 1. rewrite F. reflexivity.
Qed.

(** A single operand followed by no multiplicative operator is a term. *)
Lemma term_operand n s :
  operand (cur s) = true -> is_mulop (kind (cur (advance s))) = false ->
  term (S (S (S n))) s = Some (Some (leaf (cur s)), advance s).
Proof.
  intros H1 H2. rewrite term_S. unfold bind at 1.
  rewrite factor_operand by exact H1. apply term_loop_stop, H2.
Qed.

Lemma addop_not_mulop tk : is_addop tk = true -> is_mulop tk = false.
Proof. destruct tk; simpl; congruence. Qed.

(** C3: three operands joined by two operators of one level, followed by
    a token that is no arithmetic operator, parse left-associatively:
    the root is the second operator, its left child the tree of the first
    operator over the first two operands, its right child the third
    operand; additive operators by [simple_exp], multiplicative ones by
    [term].  All five tokens are consumed. *)
Theorem left_associative (n : nat) (s : state) (a o1 b o2 c : token)
    (rest : list token) :
  9 <= n -> 1 <= pos s ->
  stream s = [a; o1; b; o2; c] ++ rest ->
  operand a = true -> operand b = true -> operand c = true ->
  arith_op (kind (hd eofTok rest)) = false ->
  (is_addop (kind o1) && is_addop (kind o2) = true ->
   simple_exp n s =
     Some (Some (binop (kind o2) (binop (kind o1) (leaf a) (leaf b)) (leaf c)),
           advance (advance (advance (advance (advance s)))))) /\
  (is_mulop (kind o1) && is_mulop (kind o2) = true ->
   term n s =
     Some (Some (binop (kind o2) (binop (kind o1) (leaf a) (leaf b)) (leaf c)),
           advance (advance (advance (advance (advance s)))))).
Proof.
  intros Hn P HS Ha Hb Hc Hr.
  destruct (arith_op_false _ Hr) as [Hr1 Hr2].
  pose proof (cur_iter 0 s P) as C0. pose proof (cur_iter 1 s P) as C1.
  pose proof (cur_iter 2 s P) as C2. pose proof (cur_iter 3 s P) as C3.
  pose proof (cur_iter 4 s P) as C4. pose proof (cur_iter 5 s P) as C5.
  rewrite HS in C0, C1, C2, C3, C4, C5.
  change (cur s = a) in C0. change (cur (advance s) = o1) in C1.
  change (cur (advance (advance s)) = b) in C2.
  change (cur (advance (advance (advance s))) = o2) in C3.
  change (cur (advance (advance (advance (advance s)))) = c) in C4.
  change (cur (advance (advance (advance (advance (advance s))))) =
          nth 0 rest eofTok) in C5.
  replace (hd eofTok rest) with (nth 0 rest eofTok) in Hr1, Hr2
    by (destruct rest; reflexivity).
  rewrite <- C5 in Hr1, Hr2.
  do 9 (destruct n as [|n]; [lia|]).
  split; intros Hops; apply andb_prop in Hops; destruct Hops as [Ho1 Ho2].
  - rewrite simple_exp_S. unfold bind at 1.
    rewrite term_operand
      by (rewrite ?C0, ?C1; auto using addop_not_mulop).
    erewrite simple_exp_loop_step;
      [| rewrite C1; exact Ho1
       | apply term_operand; rewrite ?C2, ?C3; auto using addop_not_mulop].
    erewrite simple_exp_loop_step;
      [| rewrite C3; exact Ho2
       | apply term_operand; rewrite ?C4; auto using addop_not_mulop].
    rewrite simple_exp_loop_stop by exact Hr1.
    rewrite C0, C1, C2, C3, C4. reflexivity.
  - rewrite term_S. unfold bind at 1.
    rewrite factor_operand by (rewrite C0; exact Ha).
    erewrite term_loop_step;
      [| rewrite C1; exact Ho1 | apply factor_operand; rewrite C2; exact Hb].
    erewrite term_loop_step;
      [| rewrite C3; exact Ho2 | apply factor_operand; rewrite C4; exact Hc].
    rewrite term_loop_stop by exact Hr2.
    rewrite C0, C1, C2, C3, C4. reflexivity.
Qed.

Lemma left_associative_witness :
  9 <= 9 /\ 1 <= pos (advance (init minus_plus_input)) /\
  stream (advance (init minus_plus_input)) =
    [number "1"; tk MINUS; number "2"; tk PLUS; number "3"] ++ [] /\
  simple_exp 9 (advance (init minus_plus_input)) =
    Some (Some (binop PLUS (binop MINUS (constant 1) (constant 2)) (constant 3)),
          Nat.iter 6 advance (init minus_plus_input)).
Proof.
  split; [lia|]. split; [simpl; lia|]. split; [reflexivity|].
  exact (proj1 (left_associative 9 (advance (init minus_plus_input))
                  (number "1") (tk MINUS) (number "2") (tk PLUS) (number "3") []
                  (le_n 9) (le_n 1) eq_refl eq_refl eq_refl eq_refl eq_refl)
               eq_refl).
Defined.

(** *** Precedence layering *)

Lemma nth_skipn_gen {A} p i (l : list A) d :
  nth i (skipn p l) d = nth (p + i) l d.
Proof.
  revert l. induction p as [|p IH]; intros l; [reflexivity|].
  destruct l as [|x l]; simpl; [destruct i; reflexivity | apply IH].
Qed.

Lemma nth_firstn_lt {A} m i (l : list A) d :
  i < m -> nth i (firstn m l) d = nth i l d.
Proof.
  revert m l. induction i as [|i IH]; intros [|m] [|x l] H; simpl;
    try lia; try reflexivity.
  apply IH. lia.
Qed.

Lemma paren_free_no_lparen s s' :
  paren_free (read_tokens s s') = true -> no_lparen (pred (pos s')) s.
Proof.
  intros H k Hk. unfold read_tokens in H.
  replace k with (pred (pos s) + (k - pred (pos s))) by lia.
  rewrite <- nth_skipn_gen. fold (stream s).
  rewrite <- (nth_firstn_lt (pred (pos s') - pred (pos s))) by lia.
  destruct (nth_in_or_default (k - pred (pos s))
              (firstn (pred (pos s') - pred (pos s)) (stream s)) eofTok)
    as [Hin | ->]; [|discriminate].
  unfold paren_free in H. rewrite forallb_forall in H.
  apply H in Hin. intros E. rewrite E in Hin. discriminate.
Qed.

Lemma no_lparen_frame b s s' : frame s s' -> no_lparen b s -> no_lparen b s'.
Proof.
  intros (T & P & _) H k Hk. rewrite T. apply H. lia.
Qed.

Lemma no_lparen_mono b b' s : b <= b' -> no_lparen b' s -> no_lparen b s.
Proof. intros L H k Hk. apply H. lia. Qed.

Lemma no_lparen_cur b s :
  no_lparen b s -> pred (pos s) < b -> kind (cur s) <> LPAREN.
Proof. intros H L. apply H. lia. Qed.

(** Every expression routine reads at least one token. *)
Lemma factor_progress n s r s' : factor n s = Some (r, s') -> pos s < pos s'.
Proof.
  intros H. destruct n as [|n]; [discriminate|].
  cbn [factor] in H. rewrite bind_token_kind in H.
  pose proof (routines_frame n) as FR. split_routines FR.
  destruct (kind (cur s)) eqn:K; cbv beta iota in H;
    try (rewrite bind_syntaxError, bind_getToken in H;
         cbv [ret] in H; injection H as _ <-; simpl; lia);
    try rewrite bind_tokenString in H;
    rewrite match_hit in H by exact K;
    match type of H with
    | ?m (advance s) = Some _ =>
        assert (Hm : preserves frame m) by (repeat frame_step);
        destruct (Hm _ _ _ H) as (_ & P & _); simpl in P; lia
    end.
Qed.

Lemma term_progress n s r s' : term n s = Some (r, s') -> pos s < pos s'.
Proof.
  intros H. destruct n as [|n]; [discriminate|].
  pose proof (routines_frame n) as FR. split_routines FR.
  rewrite term_S in H. unfold bind in H.
  destruct (factor n s) as [[c s1]|] eqn:F; [|discriminate].
  pose proof (factor_progress _ _ _ _ F).
  destruct (Htloop _ _ _ _ H) as (_ & P & _). lia.
Qed.

Lemma simple_exp_progress n s r s' :
  simple_exp n s = Some (r, s') -> pos s < pos s'.
Proof.
  intros H. destruct n as [|n]; [discriminate|].
  pose proof (routines_frame n) as FR. split_routines FR.
  rewrite simple_exp_S in H. unfold bind in H.
  destruct (term n s) as [[c s1]|] eqn:F; [|discriminate].
  pose proof (term_progress _ _ _ _ F).
  destruct (Hsloop _ _ _ _ H) as (_ & P & _). lia.
Qed.

Lemma exp_progress n s r s' : exp n s = Some (r, s') -> pos s < pos s'.
Proof.
  intros H. destruct n as [|n]; [discriminate|].
  pose proof (routines_frame n) as FR. split_routines FR.
  cbn [exp] in H. unfold bind at 1 in H.
  destruct (simple_exp n s) as [[t s1]|] eqn:E; [|discriminate].
  pose proof (simple_exp_progress _ _ _ _ E).
  cbv beta iota in H. rewrite bind_token_kind in H.
  destruct (is_relop (kind (cur s1))).
  - rewrite match_hit in H by reflexivity. unfold bind at 1 in H.
    destruct (simple_exp n (advance s1)) as [[c s2]|] eqn:E2; [|discriminate].
    cbv [ret] in H. injection H as _ <-.
    destruct (Hsexp _ _ _ E2) as (_ & P & _). simpl in P. lia.
  - cbv [ret] in H. injection H as _ <-. lia.
Qed.

(** A parenthesised factor reads the parenthesis and at least one more
    token. *)
Lemma factor_lparen_progress n s r s' :
  kind (cur s) = LPAREN -> factor n s = Some (r, s') -> S (S (pos s)) <= pos s'.
Proof.
  intros K H. destruct n as [|n]; [discriminate|].
  cbn [factor] in H. rewrite bind_token_kind, K in H. cbv beta iota in H.
  rewrite match_hit in H by exact K. unfold bind at 1 in H.
  destruct (exp n (advance s)) as [[t s2]|] eqn:E; [|discriminate].
  pose proof (exp_progress _ _ _ _ E) as P2. simpl in P2.
  match type of H with
  | ?m s2 = Some _ =>
      assert (Hm : preserves frame m) by (repeat frame_step);
      destruct (Hm _ _ _ H) as (_ & P & _); lia
  end.
Qed.

Lemma layered_op op l r :
  layered_opt (Some (expNode OpK l r (AOp op))) =
  Nat.leb (prec op) (op_level l) && Nat.ltb (prec op) (op_level r) &&
  layered_opt l && layered_opt r.
Proof. reflexivity. Qed.

Lemma op_level_op op l r : op_level (Some (expNode OpK l r (AOp op))) = prec op.
Proof. reflexivity. Qed.

Lemma prec_mulop op : is_mulop op = true -> prec op = 2.
Proof. destruct op; intros H; try discriminate; reflexivity. Qed.

Lemma prec_addop op : is_addop op = true -> prec op = 1.
Proof. destruct op; intros H; try discriminate; reflexivity. Qed.

Lemma prec_relop op : is_relop op = true -> prec op = 0.
Proof. destruct op; intros H; try discriminate; reflexivity. Qed.

Ltac layer_arith :=
  rewrite ?layered_op, ?op_level_op;
  repeat match goal with
  | |- context [prec ?op] =>
      first [ rewrite (prec_mulop op) by assumption
            | rewrite (prec_addop op) by assumption
            | rewrite (prec_relop op) by assumption ]
  end;
  repeat match goal with
  | |- _ /\ _ => split
  | |- (_ && _) = true => apply andb_true_intro; split
  end;
  first [ assumption | apply Nat.leb_le; lia | apply Nat.ltb_lt; lia | lia ].

(** The expression routines, when no token they read is a left
    parenthesis, build trees whose operator levels only grow downwards. *)
Lemma expr_layered n :
  (forall s r s', no_lparen (pred (pos s')) s -> factor n s = Some (r, s') ->
     op_level r = 3 /\ layered_opt r = true) /\
  (forall s t r s', no_lparen (pred (pos s')) s -> 2 <= op_level t ->
     layered_opt t = true -> term_loop n t s = Some (r, s') ->
     2 <= op_level r /\ layered_opt r = true) /\
  (forall s r s', no_lparen (pred (pos s')) s -> term n s = Some (r, s') ->
     2 <= op_level r /\ layered_opt r = true) /\
  (forall s t r s', no_lparen (pred (pos s')) s -> 1 <= op_level t ->
     layered_opt t = true -> simple_exp_loop n t s = Some (r, s') ->
     1 <= op_level r /\ layered_opt r = true) /\
  (forall s r s', no_lparen (pred (pos s')) s ->
     simple_exp n s = Some (r, s') ->
     1 <= op_level r /\ layered_opt r = true) /\
  (forall s r s', no_lparen (pred (pos s')) s -> exp n s = Some (r, s') ->
     layered_opt r = true).
Proof.
  induction n as [|n IH].
  { refine (conj _ (conj _ (conj _ (conj _ (conj _ _)))));
      intros; discriminate. }
  destruct IH as (IHf & IHtl & IHt & IHsl & IHs & IHe).
  pose proof (routines_frame n) as FR. split_routines FR.
  (* a run from [s1] to [s2] inside a run from [s] to [s3] reads a part
     of what the outer run reads *)
  assert (Mid : forall s s1 s2 s3, frame s s1 -> frame s1 s2 -> frame s2 s3 ->
            no_lparen (pred (pos s3)) s -> no_lparen (pred (pos s2)) s1).
  { intros s s1 s2 s3 F1 F2 (_ & P3 & _) NL.
    apply (no_lparen_mono _ (pred (pos s3))); [lia|].
    exact (no_lparen_frame _ _ _ F1 NL). }
  refine (conj _ (conj _ (conj _ (conj _ (conj _ _))))).
  - (* factor *)
    intros s r s' NL H.
    assert (NC : kind (cur s) <> LPAREN).
    { intros KL. apply (no_lparen_cur _ _ NL); [|exact KL].
      pose proof (factor_lparen_progress _ _ _ _ KL H). lia. }
    cbn [factor] in H. rewrite bind_token_kind in H.
    destruct (kind (cur s)) eqn:K; cbv beta iota in H;
      try (rewrite bind_syntaxError, bind_getToken in H;
           cbv [ret] in H; injection H as <- <-; split; reflexivity);
      try congruence;
      rewrite bind_tokenString, match_hit in H by exact K;
      cbv [ret] in H; injection H as <- <-; split; reflexivity.
  - intros s t r s' NL L T H. cbn [term_loop] in H.
    rewrite bind_token_kind in H.
    destruct (is_mulop (kind (cur s))) eqn:Km.
    + rewrite match_hit in H by reflexivity. unfold bind at 1 in H.
      destruct (factor n (advance s)) as [[c s1]|] eqn:F; [|discriminate].
      cbv beta iota in H.
      destruct (IHf _ _ _ (Mid _ _ _ _ (frame_advance s) (Hfac _ _ _ F)
                               (Htloop _ _ _ _ H) NL) F) as [Lc Tc].
      eapply IHtl; [| | | exact H].
      * eapply no_lparen_frame; [|exact NL].
        exact (frame_trans _ _ _ (frame_advance s) (Hfac _ _ _ F)).
      * layer_arith.
      * layer_arith.
    + cbv [ret] in H. injection H as <- <-. auto.
  - intros s r s' NL H. rewrite term_S in H. unfold bind in H.
    destruct (factor n s) as [[c s1]|] eqn:F; [|discriminate].
    destruct (IHf _ _ _ (Mid _ _ _ _ (frame_refl s) (Hfac _ _ _ F)
                             (Htloop _ _ _ _ H) NL) F) as [Lc Tc].
    eapply IHtl; [| | | exact H].
    + eapply no_lparen_frame; [exact (Hfac _ _ _ F)|exact NL].
    + lia.
    + exact Tc.
  - intros s t r s' NL L T H. cbn [simple_exp_loop] in H.
    rewrite bind_token_kind in H.
    destruct (is_addop (kind (cur s))) eqn:Ka.
    + rewrite match_hit in H by reflexivity. unfold bind at 1 in H.
      destruct (term n (advance s)) as [[c s1]|] eqn:F; [|discriminate].
      cbv beta iota in H.
      destruct (IHt _ _ _ (Mid _ _ _ _ (frame_advance s) (Hterm _ _ _ F)
                               (Hsloop _ _ _ _ H) NL) F) as [Lc Tc].
      eapply IHsl; [| | | exact H].
      * eapply no_lparen_frame; [|exact NL].
        exact (frame_trans _ _ _ (frame_advance s) (Hterm _ _ _ F)).
      * layer_arith.
      * layer_arith.
    + cbv [ret] in H. injection H as <- <-. auto.
  - intros s r s' NL H. rewrite simple_exp_S in H. unfold bind in H.
    destruct (term n s) as [[c s1]|] eqn:F; [|discriminate].
    destruct (IHt _ _ _ (Mid _ _ _ _ (frame_refl s) (Hterm _ _ _ F)
                             (Hsloop _ _ _ _ H) NL) F) as [Lc Tc].
    eapply IHsl; [| | | exact H].
    + eapply no_lparen_frame; [exact (Hterm _ _ _ F)|exact NL].
    + lia.
    + exact Tc.
  - intros s r s' NL H. cbn [exp] in H. unfold bind at 1 in H.
    destruct (simple_exp n s) as [[t s1]|] eqn:E; [|discriminate].
    cbv beta iota in H. rewrite bind_token_kind in H.
    destruct (is_relop (kind (cur s1))) eqn:Kr.
    + rewrite match_hit in H by reflexivity. unfold bind at 1 in H.
      destruct (simple_exp n (advance s1)) as [[c s2]|] eqn:E2;
        [|discriminate].
      cbv [ret] in H. injection H as <- <-.
      destruct (IHs _ _ _ (Mid _ _ _ _ (frame_refl s) (Hsexp _ _ _ E)
                  (frame_trans _ _ _ (frame_advance s1) (Hsexp _ _ _ E2)) NL)
                  E) as [Lt Tt].
      destruct (IHs _ _ _ (no_lparen_frame _ _ _
                  (frame_trans _ _ _ (Hsexp _ _ _ E) (frame_advance s1)) NL)
                  E2) as [Lc Tc].
      layer_arith.
    + cbv [ret] in H. injection H as <- <-.
      destruct (IHs _ _ _ NL E) as [_ Tt]. exact Tt.
Qed.

(** C4: when no token that [exp] reads is a left parenthesis (the tokens
    after the expression are unrestricted), every operator node of the
    tree it builds has a left operand of at least its own precedence level
    and a right operand of strictly higher level (levels: relational 0,
    additive 1, multiplicative 2, leaves 3).  So a multiplicative node
    never has an additive or relational node below it, an additive node
    never a relational one, and the lower-precedence operator is always
    the root with the higher-precedence subtree as its child. *)
Theorem precedence_layering (n : nat) (s : state) (r : option TreeNode)
    (s' : state) :
  paren_free (read_tokens s s') = true -> exp n s = Some (r, s') ->
  layered_opt r = true.
Proof.
  intros H E. apply paren_free_no_lparen in H.
  destruct (expr_layered n) as (_ & _ & _ & _ & _ & Hexp).
  exact (Hexp _ _ _ H E).
Qed.

Lemma precedence_layering_witness :
  paren_free (read_tokens (advance (init plus_times_paren_input))
                (Nat.iter 6 advance (init plus_times_paren_input))) = true /\
  exp 9 (advance (init plus_times_paren_input)) =
    Some (Some (binop PLUS (constant 2) (binop TIMES (constant 3) (constant 4))),
          Nat.iter 6 advance (init plus_times_paren_input)) /\
  layered_opt
    (Some (binop PLUS (constant 2) (binop TIMES (constant 3) (constant 4))))
    = true.
Proof.
  assert (H1 : paren_free (read_tokens (advance (init plus_times_paren_input))
                 (Nat.iter 6 advance (init plus_times_paren_input))) = true)
    by (vm_compute; reflexivity).
  assert (H2 : exp 9 (advance (init plus_times_paren_input)) =
    Some (Some (binop PLUS (constant 2) (binop TIMES (constant 3) (constant 4))),
          Nat.iter 6 advance (init plus_times_paren_input)))
    by (vm_compute; reflexivity).
  split; [exact H1|split; [exact H2|]].
  exact (precedence_layering 9 _ _ _ H1 H2).
Defined.

(** *** Consumed tokens *)

Lemma consumed_advance s :
  1 <= pos s -> consumed (advance s) = consumed s ++ [cur s].
Proof.
  intros P. unfold consumed, cur. simpl.
  destruct (pos s) as [|p]; [lia|]. simpl pred.
  rewrite seq_S, map_app. reflexivity.
Qed.

Lemma cnt_advance s :
  1 <= pos s ->
  cnt (advance s) = cnt s + (if TokenType_beq (kind (cur s)) SEMI then 1 else 0).
Proof.
  intros P. unfold cnt, count_semis. rewrite consumed_advance by exact P.
  rewrite filter_app, length_app. simpl.
  destruct (TokenType_beq (kind (cur s)) SEMI); reflexivity.
Qed.

Lemma dstate_advance s :
  1 <= pos s -> dstate (advance s) = dstep (dstate s) (kind (cur s)).
Proof.
  intros P. unfold dstate. rewrite consumed_advance by exact P.
  rewrite map_app, fold_left_app. reflexivity.
Qed.

Lemma bind_inv {A B} (m : M A) (k : A -> M B) x v :
  bind m k x = Some v -> exists a y, m x = Some (a, y) /\ k a y = Some v.
Proof.
  unfold bind. destruct (m x) as [[a y]|]; [|discriminate]. eauto.
Qed.

Lemma err_back s s' : frame s s' -> Error s' = false -> Error s = false.
Proof.
  intros (_ & _ & d & _ & E) H.
  destruct (Error s) eqn:Es; [|reflexivity].
  assert (Error s' = true) by (apply E; auto). congruence.
Qed.

Lemma complete_exp_seps x : complete_exp x = true -> seps x = 0.
Proof.
  revert x. fix IH 1. intros [c0 c1 c2 sib nk a] H.
  destruct nk as [k|k]; [discriminate|].
  destruct k; simpl in H |- *;
    repeat match goal with
    | H : (_ && _) = true |- _ => apply andb_prop in H; destruct H
    end;
    destruct c0 as [x0|], c1 as [x1|], c2, sib; simpl in *;
    try discriminate; rewrite ?(IH x0), ?(IH x1) by assumption; reflexivity.
Qed.

Lemma req_exp_seps r : req complete_exp r = true -> seps_opt r = 0.
Proof. destruct r; simpl; [apply complete_exp_seps | discriminate]. Qed.

Lemma seps_set_sibling x o :
  sibling x = None ->
  seps (set_sibling x o) =
  seps x + match o with Some y => S (seps y) | None => 0 end.
Proof. destruct x as [c0 c1 c2 sib nk a]; simpl. intros ->. lia. Qed.

Lemma complete_set_sibling x o :
  sibling x = None ->
  complete_stmt (set_sibling x o) = complete_stmt x && optional complete_stmt o.
Proof.
  destruct x as [c0 c1 c2 sib nk a]; simpl. intros ->.
  destruct nk; [|reflexivity]. simpl. rewrite andb_true_r. reflexivity.
Qed.

Lemma alone_sibling x : alone x = true -> sibling x = None.
Proof.
  unfold alone. destruct (sibling x); simpl; [discriminate|reflexivity].
Qed.

Lemma alone_complete x : alone x = true -> complete_stmt x = true.
Proof. unfold alone. intros H. apply andb_prop in H. tauto. Qed.

Lemma link_complete acc :
  acc <> [] -> forallb alone acc = true -> req complete_stmt (link acc) = true.
Proof.
  induction acc as [|x acc IH]; intros NE H; [congruence|].
  simpl in H. apply andb_prop in H. destruct H as [Hx Ha].
  cbn [link req]. rewrite complete_set_sibling by (apply alone_sibling, Hx).
  rewrite alone_complete by exact Hx. simpl.
  destruct acc as [|y acc]; [reflexivity|].
  specialize (IH ltac:(discriminate) Ha). destruct (link (y :: acc)); auto.
Qed.

Lemma link_cons x l : link (x :: l) = Some (set_sibling x (link l)).
Proof. reflexivity. Qed.

Lemma link_app_seps acc x :
  acc <> [] -> forallb alone acc = true -> alone x = true ->
  seps_opt (link (acc ++ [x])) = seps_opt (link acc) + 1 + seps x.
Proof.
  induction acc as [|a acc IH]; intros NE H Hx; [congruence|].
  simpl in H. apply andb_prop in H. destruct H as [Ha Hacc].
  destruct acc as [|b acc].
  - cbn [app link seps_opt].
    rewrite !seps_set_sibling by (apply alone_sibling; assumption).
    lia.
  - change ((a :: b :: acc) ++ [x]) with (a :: ((b :: acc) ++ [x])).
    rewrite (link_cons a ((b :: acc) ++ [x])), (link_cons a (b :: acc)).
    cbn [seps_opt].
    rewrite !seps_set_sibling by (apply alone_sibling; assumption).
    specialize (IH ltac:(discriminate) Hacc Hx).
    destruct (link ((b :: acc) ++ [x])) as [y|] eqn:L1;
      [|destruct acc; discriminate].
    destruct (link (b :: acc)) as [z|] eqn:L2; [|discriminate].
    simpl in IH |- *. lia.
Qed.

Lemma link_one_seps x : alone x = true -> seps_opt (link [x]) = seps x.
Proof.
  intros H. cbn [link seps_opt].
  rewrite seps_set_sibling by (apply alone_sibling, H). lia.
Qed.

(** *** Forward symbolic execution of a successful run *)

Lemma match_ok {A} e (k : unit -> M A) s v s' :
  preserves frame (k tt) -> bind (match_ e) k s = Some (v, s') ->
  Error s' = false -> kind (cur s) = e /\ k tt (advance s) = Some (v, s').
Proof.
  intros Hk H Er. rewrite bind_match in H.
  destruct (TokenType_beq (kind (cur s)) e) eqn:B.
  - split; [apply beq_true; exact B | exact H].
  - exfalso. apply Hk in H. apply (err_back _ _ H) in Er. discriminate Er.
Qed.

Lemma error_dead {A} msg (k : unit -> M A) s v s' :
  preserves frame (k tt) -> bind (syntaxError msg) k s = Some (v, s') ->
  Error s' = false -> False.
Proof.
  intros Hk H Er. rewrite bind_syntaxError in H. apply Hk in H.
  apply (err_back _ _ H) in Er. discriminate Er.
Qed.

Lemma inv_seq n : parse_inv n ->
  forall s r s', 1 <= pos s -> stmt_sequence n s = Some (r, s') ->
  Error s' = false -> dstate s <> None ->
  req complete_stmt r = true /\ cnt s' = cnt s + seps_opt r /\ dstate s' <> None.
Proof. intros I; apply I. Qed.

Lemma inv_loop n : parse_inv n ->
  forall acc s r s', 1 <= pos s -> stmt_seq_loop n acc s = Some (r, s') ->
  Error s' = false -> dstate s <> None ->
  acc <> [] -> forallb alone acc = true ->
  req complete_stmt r = true /\
  cnt s' + seps_opt (link acc) = cnt s + seps_opt r /\ dstate s' <> None.
Proof. intros I; apply I. Qed.

Lemma inv_exp n : parse_inv n ->
  forall s r s' rest, 1 <= pos s -> exp n s = Some (r, s') ->
  Error s' = false -> dstate s = Some (false, rest) ->
  req complete_exp r = true /\ cnt s' = cnt s /\
  exists b, dstate s' = Some (b, rest).
Proof. intros I; apply I. Qed.

Lemma inv_stmt n : parse_inv n -> stmt_inv (statement n).
Proof. intros I; apply I. Qed.
Lemma inv_if n : parse_inv n -> stmt_inv (if_stmt n).
Proof. intros I; apply I. Qed.
Lemma inv_repeat n : parse_inv n -> stmt_inv (repeat_stmt n).
Proof. intros I; apply I. Qed.
Lemma inv_assign n : parse_inv n -> stmt_inv (assign_stmt n).
Proof. intros I; apply I. Qed.
Lemma inv_read n : parse_inv n -> stmt_inv (read_stmt n).
Proof. intros I; apply I. Qed.
Lemma inv_write n : parse_inv n -> stmt_inv (write_stmt n).
Proof. intros I; apply I. Qed.
Lemma inv_while n : parse_inv n -> stmt_inv (while_stmt n).
Proof. intros I; apply I. Qed.
Lemma inv_dowhile n : parse_inv n -> stmt_inv (dowhile_stmt n).
Proof. intros I; apply I. Qed.
Lemma inv_for n : parse_inv n -> stmt_inv (for_stmt n).
Proof. intros I; apply I. Qed.
Lemma inv_sexp n : parse_inv n -> expr_inv (simple_exp n).
Proof. intros I; apply I. Qed.
Lemma inv_sloop n : parse_inv n ->
  forall t, req complete_exp t = true -> expr_inv (simple_exp_loop n t).
Proof. intros I; apply I. Qed.
Lemma inv_term n : parse_inv n -> expr_inv (term n).
Proof. intros I; apply I. Qed.
Lemma inv_tloop n : parse_inv n ->
  forall t, req complete_exp t = true -> expr_inv (term_loop n t).
Proof. intros I; apply I. Qed.
Lemma inv_factor n : parse_inv n -> expr_inv (factor n).
Proof. intros I; apply I. Qed.

(** Runs the hypothesis [H : body s = Some (r, s')] of an error-free run
    ([Er : Error s' = false]) forward: primitive steps are rewritten, every
    [match] is found to hit, tests are split and every sub-call becomes an
    equation [E : g x = Some (a, y)]. *)
Ltac fwd H Er :=
  repeat (
    first
    [ rewrite bind_assoc in H
    | rewrite bind_token_kind in H
    | rewrite bind_tokenString in H
    | rewrite bind_ret in H
    | rewrite bind_getToken in H
    | lazymatch type of H with
      | bind (match_ ?e) ?k ?z = _ =>
          let B := fresh "B" in let H' := fresh "H" in
          destruct (match_ok e k z _ _ ltac:(repeat frame_step) H Er) as [B H'];
          clear H; rename H' into H;
          try (match type of B with ?x = ?x => clear B end)
      | bind (syntaxError _) ?k ?z = _ =>
          exfalso; exact (error_dead _ k z _ _ ltac:(repeat frame_step) H Er)
      end
    | match goal with B : kind (cur ?z) = _ |- _ => rewrite B in H end
    | rewrite beq_refl in H
    | progress (cbv beta iota in H)
    | lazymatch type of H with
      | (if ?b then _ else _) = _ =>
          let B := fresh "B" in destruct b eqn:B; try apply beq_true in B
      | bind (if ?b then _ else _) _ _ = _ =>
          let B := fresh "B" in destruct b eqn:B; try apply beq_true in B
      | (if ?b then _ else _) _ = _ =>
          let B := fresh "B" in destruct b eqn:B; try apply beq_true in B
      | ret _ _ = _ => cbv [ret] in H; injection H as <- <-
      | bind _ _ _ = _ =>
          let E := fresh "E" in
          apply bind_inv in H; destruct H as (? & ? & E & H)
      | (match kind (cur ?z) with _ => _ end) _ = _ =>
          let K := fresh "K" in destruct (kind (cur z)) eqn:K
      end ]).

(** An operator test on the current token becomes the operator itself. *)
Ltac kind_split :=
  repeat match goal with
  | B : ?f (kind (cur ?z)) = true |- _ =>
      let K := fresh "K" in
      destruct (kind (cur z)) eqn:K; rewrite ?K in B;
      try (cbn in B; discriminate B); clear B
  end.

Ltac frame_of E :=
  match type of E with
  | ?m ?x = Some (?a, ?y) =>
      let Hm := fresh in
      assert (Hm : preserves frame m) by (repeat frame_step);
      exact (Hm x a y E)
  end.

(** Frames of all sub-calls, with the cursor facts they give. *)
Ltac mk_frames :=
  repeat match goal with
  | E : ?g ?x = Some (_, ?y) |- _ =>
      lazymatch goal with _ : frame x y |- _ => fail | _ => idtac end;
      let F := fresh "F" in
      assert (F : frame x y) by (frame_of E);
      let Pp := fresh "Pp" in
      pose proof (proj1 (proj2 F)) as Pp; cbn [pos advance record_error] in Pp
  end.

(** The error flag is monotone: every state of an error-free run is
    error-free. *)
Ltac err_chain :=
  repeat match goal with
  | H : Error (advance ?z) = false |- _ => change (Error z = false) in H
  | F : frame ?x ?y, H : Error ?y = false |- _ =>
      pose proof (err_back _ _ F H); clear F
  end.

Ltac pos_solve := cbn [pos advance record_error]; lia.

Ltac ds_norm :=
  repeat first
    [ rewrite dstate_advance by pos_solve
    | match goal with B : kind (cur ?z) = _ |- context [kind (cur ?z)] =>
        rewrite B end
    | match goal with D : dstate ?y = _ |- context [dstate ?y] =>
        rewrite D end ];
  cbn [dstep is_relop is_operand arith_op is_addop is_mulop orb andb].

Ltac ds_solve :=
  ds_norm;
  first [ reflexivity | discriminate | congruence | eexists; reflexivity ].

Ltac ok_solve :=
  repeat match goal with B : kind (cur _) = _ |- _ => rewrite B end;
  cbn [req optional absent alone_opt alone complete_exp complete_stmt sibling
       stmtNode expNode is_name no_attr op_attr val_attr is_relop arith_op
       is_addop is_mulop andb orb];
  repeat match goal with O : ?f ?x = true |- context [?f ?x] => rewrite O end;
  cbn [andb orb]; reflexivity.

(** Results: an option known to be complete is [Some]. *)
Ltac norm_ok O :=
  lazymatch type of O with
  | req _ ?a = true =>
      let x := fresh "x" in
      destruct a as [x|]; [cbn [req] in O | discriminate O]
  | alone_opt ?a = true =>
      let x := fresh "x" in
      destruct a as [x|]; [cbn [alone_opt] in O | discriminate O]
  end.

Ltac ds_fix D :=
  lazymatch type of D with
  | dstate ?y <> None =>
      let tp := fresh "tp" in let rs := fresh "rs" in let Dy := fresh "Dy" in
      destruct (dstate y) as [[tp rs]|] eqn:Dy; [clear D | congruence]
  | _ => idtac
  end.

Ltac get_inv :=
  match goal with I : parse_inv _ |- _ => I end.

Ltac apply_ih E :=
  let I := get_inv in
  let O := fresh "O" in let C := fresh "C" in let D := fresh "D" in
  lazymatch type of E with
  | stmt_sequence _ ?x = Some (?a, ?y) =>
      let D0 := fresh "D" in assert (D0 : dstate x <> None) by ds_solve;
      destruct (inv_seq _ I x a y ltac:(pos_solve) E ltac:(assumption) D0)
        as (O & C & D); clear E D0; ds_fix D; norm_ok O
  | exp _ ?x = Some (?a, ?y) =>
      let D0 := fresh "D" in
      eassert (D0 : dstate x = Some (false, _)) by ds_solve;
      let b := fresh "b" in
      destruct (inv_exp _ I x a y _ ltac:(pos_solve) E ltac:(assumption) D0)
        as (O & C & b & D); clear E D0; norm_ok O
  | simple_exp_loop _ ?t ?x = Some (?a, ?y) =>
      let D0 := fresh "D" in assert (D0 : dstate x <> None) by ds_solve;
      let T := fresh "T" in assert (T : req complete_exp t = true) by ok_solve;
      destruct (inv_sloop _ I t T x a y ltac:(pos_solve) E ltac:(assumption) D0)
        as (O & C & D); clear E D0 T; norm_ok O
  | term_loop _ ?t ?x = Some (?a, ?y) =>
      let D0 := fresh "D" in assert (D0 : dstate x <> None) by ds_solve;
      let T := fresh "T" in assert (T : req complete_exp t = true) by ok_solve;
      destruct (inv_tloop _ I t T x a y ltac:(pos_solve) E ltac:(assumption) D0)
        as (O & C & D); clear E D0 T; norm_ok O
  | ?g _ ?x = Some (?a, ?y) =>
      let D0 := fresh "D" in assert (D0 : dstate x <> None) by ds_solve;
      lazymatch g with
      | simple_exp =>
          destruct (inv_sexp _ I x a y ltac:(pos_solve) E ltac:(assumption) D0)
            as (O & C & D)
      | term =>
          destruct (inv_term _ I x a y ltac:(pos_solve) E ltac:(assumption) D0)
            as (O & C & D)
      | factor =>
          destruct (inv_factor _ I x a y ltac:(pos_solve) E ltac:(assumption) D0)
            as (O & C & D)
      | _ =>
          let L := lazymatch g with
                   | statement => constr:(inv_stmt)
                   | if_stmt => constr:(inv_if) | repeat_stmt => constr:(inv_repeat)
                   | assign_stmt => constr:(inv_assign) | read_stmt => constr:(inv_read)
                   | write_stmt => constr:(inv_write) | while_stmt => constr:(inv_while)
                   | dowhile_stmt => constr:(inv_dowhile) | for_stmt => constr:(inv_for)
                   end in
          destruct (L _ I x a y ltac:(pos_solve) E ltac:(assumption) D0)
            as (O & C & D); ds_fix D
      end; clear E D0; norm_ok O
  end.

Ltac apply_all :=
  repeat match goal with E : _ = Some (_, _) |- _ => apply_ih E end.

Ltac cnt_solve :=
  repeat match goal with O : complete_exp ?x = true |- _ =>
    lazymatch goal with _ : seps x = 0 |- _ => fail | _ =>
      pose proof (complete_exp_seps x O) end end;
  repeat (rewrite cnt_advance in * by pos_solve);
  repeat match goal with B : kind (cur ?z) = _, C : context [kind (cur ?z)] |- _ =>
    rewrite B in C end;
  repeat match goal with B : kind (cur ?z) = _ |- context [kind (cur ?z)] =>
    rewrite B end;
  cbn [TokenType_beq seps_opt seps stmtNode expNode] in *; lia.

Ltac close_stmt := refine (conj _ (conj _ _)); [ok_solve | cnt_solve | ds_solve].

Ltac run H Er := fwd H Er; kind_split; mk_frames; err_chain; apply_all.

Lemma parse_invariant n : parse_inv n.
Proof.
  induction n as [|n IH].
  { unfold parse_inv, stmt_inv, expr_inv.
    repeat match goal with |- _ /\ _ => split end; intros;
      match goal with H : _ = Some (_, _) |- _ => simpl in H; discriminate H end. }
  pose proof (routines_frame n) as FR. split_routines FR.
  unfold parse_inv at 1.
  repeat match goal with |- _ /\ _ => split end.
  - (* stmt_sequence *)
    intros s r s' P H Er Dn. destruct (dstate s) as [[tp rs]|] eqn:Ds; [clear Dn|congruence].
    cbn [stmt_sequence] in H. fwd H Er. mk_frames. err_chain.
    apply_ih E. cbn [opt_list] in H.
    lazymatch goal with Oa : alone ?y = true, Ca : cnt _ = _,
                        H : stmt_seq_loop _ _ ?z = _ |- _ =>
      destruct (inv_loop _ IH [y] z _ _ ltac:(pos_solve) H Er ltac:(ds_solve)
                  ltac:(discriminate) ltac:(cbn [forallb]; rewrite Oa; reflexivity))
        as (O' & C' & D');
      rewrite link_one_seps in C' by exact Oa; cbn [seps_opt] in Ca
    end.
    refine (conj O' (conj _ D')). lia.
  - (* stmt_seq_loop *)
    intros acc s r s' P H Er Dn NE A. destruct (dstate s) as [[tp rs]|] eqn:Ds; [clear Dn|congruence].
    cbn [stmt_seq_loop] in H. fwd H Er.
    + refine (conj (link_complete acc NE A) (conj eq_refl _)). ds_solve.
    + mk_frames. err_chain. apply_ih E. cbn [opt_list] in H.
      lazymatch goal with Oa : alone ?y = true, Ca : cnt _ = _,
                          H : stmt_seq_loop _ _ ?z = _ |- _ =>
        assert (A' : forallb alone (acc ++ [y]) = true)
          by (rewrite forallb_app; cbn [forallb]; rewrite A, Oa; reflexivity);
        destruct (inv_loop _ IH (acc ++ [y]) z _ _ ltac:(pos_solve) H Er
                    ltac:(ds_solve) ltac:(destruct acc; discriminate) A')
          as (O' & C' & D');
        rewrite (link_app_seps acc y NE A Oa) in C';
        rewrite cnt_advance in Ca by pos_solve; match goal with Bk : kind (cur _) = SEMI |- _ => rewrite Bk in Ca end;
        cbn in Ca
      end.
      refine (conj O' (conj _ D')). lia.
  - (* statement *)
    intros s r s' P H Er Dn. destruct (dstate s) as [[tp rs]|] eqn:Ds; [clear Dn|congruence].
    cbn [statement] in H. run H Er. all: close_stmt.
  - (* if_stmt *)
    intros s r s' P H Er Dn. destruct (dstate s) as [[tp rs]|] eqn:Ds; [clear Dn|congruence].
    cbn [if_stmt] in H. run H Er. all: close_stmt.
  - (* repeat_stmt *)
    intros s r s' P H Er Dn. destruct (dstate s) as [[tp rs]|] eqn:Ds; [clear Dn|congruence].
    cbn [repeat_stmt] in H. run H Er. all: close_stmt.
  - (* assign_stmt *)
    intros s r s' P H Er Dn. destruct (dstate s) as [[tp rs]|] eqn:Ds; [clear Dn|congruence].
    cbn [assign_stmt] in H. run H Er. all: close_stmt.
  - (* read_stmt *)
    intros s r s' P H Er Dn. destruct (dstate s) as [[tp rs]|] eqn:Ds; [clear Dn|congruence].
    cbn [read_stmt] in H. run H Er. all: close_stmt.
  - (* write_stmt *)
    intros s r s' P H Er Dn. destruct (dstate s) as [[tp rs]|] eqn:Ds; [clear Dn|congruence].
    cbn [write_stmt] in H. run H Er. all: close_stmt.
  - (* exp *)
    intros s r s' rest P H Er Ds.
    cbn [exp] in H. run H Er. all: close_stmt.
  - (* simple_exp *)
    intros s r s' P H Er Dn. destruct (dstate s) as [[tp rs]|] eqn:Ds; [clear Dn|congruence].
    cbn [simple_exp] in H. run H Er. close_stmt.
  - (* simple_exp_loop *)
    intros t T s r s' P H Er Dn. destruct (dstate s) as [[tp rs]|] eqn:Ds; [clear Dn|congruence].
    norm_ok T. cbn [simple_exp_loop] in H. run H Er. all: close_stmt.
  - (* term *)
    intros s r s' P H Er Dn. destruct (dstate s) as [[tp rs]|] eqn:Ds; [clear Dn|congruence].
    cbn [term] in H. run H Er. close_stmt.
  - (* term_loop *)
    intros t T s r s' P H Er Dn. destruct (dstate s) as [[tp rs]|] eqn:Ds; [clear Dn|congruence].
    norm_ok T. cbn [term_loop] in H. run H Er. all: close_stmt.
  - (* factor *)
    intros s r s' P H Er Dn. destruct (dstate s) as [[tp rs]|] eqn:Ds; [clear Dn|congruence].
    cbn [factor] in H. run H Er. all: close_stmt.
  - (* while_stmt *)
    intros s r s' P H Er Dn. destruct (dstate s) as [[tp rs]|] eqn:Ds; [clear Dn|congruence].
    cbn [while_stmt] in H. run H Er. all: close_stmt.
  - (* dowhile_stmt *)
    intros s r s' P H Er Dn. destruct (dstate s) as [[tp rs]|] eqn:Ds; [clear Dn|congruence].
    cbn [dowhile_stmt] in H. run H Er. all: close_stmt.
  - (* for_stmt *)
    intros s r s' P H Er Dn. destruct (dstate s) as [[tp rs]|] eqn:Ds; [clear Dn|congruence].
    cbn [for_stmt] in H. run H Er. all: close_stmt.
Qed.

(** *** Consumed tokens at the end of an error-free parse *)

Lemma map_nth_seq_self {A} (l : list A) d :
  map (fun i => nth i l d) (seq 0 (length l)) = l.
Proof.
  apply (nth_ext _ _ d d).
  - rewrite length_map, length_seq. reflexivity.
  - intros i Hi. rewrite length_map, length_seq in Hi.
    pose proof (map_nth (fun j => nth j l d) (seq 0 (length l)) 0 i) as Eq.
    rewrite seq_nth in Eq by exact Hi. cbv beta in Eq.
    rewrite (nth_indep _ d (nth 0 l d))
      by (rewrite length_map, length_seq; exact Hi).
    exact Eq.
Qed.

Lemma consumed_full s :
  no_endfile (toks s) = true -> kind (cur s) = ENDFILE ->
  exists pad, consumed s = toks s ++ pad /\
              forallb (fun t => TokenType_beq (kind t) ENDFILE) pad = true.
Proof.
  intros NE K. unfold consumed. unfold cur in K.
  set (k := pred (pos s)) in *.
  assert (Hk : length (toks s) <= k).
  { destruct (Nat.le_gt_cases (length (toks s)) k) as [L|L]; [exact L|].
    exfalso. unfold no_endfile in NE. rewrite forallb_forall in NE.
    specialize (NE _ (nth_In _ eofTok L)). rewrite K in NE. discriminate NE. }
  replace k with (length (toks s) + (k - length (toks s))) by lia.
  rewrite seq_app, map_app, map_nth_seq_self.
  eexists. split; [reflexivity|].
  apply forallb_forall. intros t Ht. apply in_map_iff in Ht.
  destruct Ht as (i & <- & Hi). apply in_seq in Hi.
  rewrite nth_overflow by lia. reflexivity.
Qed.

Lemma count_semis_app l1 l2 :
  count_semis (l1 ++ l2) = count_semis l1 + count_semis l2.
Proof. unfold count_semis. rewrite filter_app, length_app. reflexivity. Qed.

Lemma count_semis_eof pad :
  forallb (fun t => TokenType_beq (kind t) ENDFILE) pad = true ->
  count_semis pad = 0.
Proof.
  induction pad as [|t pad IH]; [reflexivity|]. cbn [forallb].
  intros H. apply andb_prop in H. destruct H as [Ht H].
  apply beq_true in Ht. unfold count_semis in *. cbn [filter].
  rewrite Ht. cbn. apply IH, H.
Qed.

(** The end of [parse]: a run without the error flag ended on [ENDFILE]
    in the state [stmt_sequence] left. *)
Lemma parse_fuel_inv n ts t s :
  parse_fuel n ts = Some (t, s) -> Error s = false ->
  stmt_sequence n (advance (init ts)) = Some (t, s) /\ kind (cur s) = ENDFILE.
Proof.
  unfold parse_fuel, parse_body. rewrite bind_getToken.
  unfold bind at 1. destruct (stmt_sequence n (advance (init ts))) as [[t1 s1]|] eqn:E;
    [|discriminate].
  rewrite bind_token_kind. intros H Er.
  destruct (TokenType_beq (kind (cur s1)) ENDFILE) eqn:B.
  - injection H as <- <-. split; [reflexivity | apply beq_true, B].
  - injection H as _ <-. discriminate Er.
Qed.

Lemma init_facts ts :
  pos (advance (init ts)) = 1 /\ cnt (advance (init ts)) = 0 /\
  dstate (advance (init ts)) = Some (false, []).
Proof. repeat split. Qed.

Lemma parse_flag n ts t s :
  parse_fuel n ts = Some (t, s) -> (Error s = true <-> diags s <> []).
Proof.
  intros H.
  destruct (parse_body_preserves frame frame_refl frame_trans frame_advance
              frame_error n _ _ _ H) as (_ & _ & d & D & E).
  rewrite E, D. simpl.
  split; [intros [H1|H1]; [discriminate H1 | exact H1] | intros H1; right; exact H1].
Qed.

(** *** Relational chains drive the automaton to [None] *)

Lemma dstep_none l : fold_left dstep l None = None.
Proof. induction l; [reflexivity | exact IHl]. Qed.

Lemma dstep_run rest : forall w d st,
  toplevel_run d w = true ->
  (st = None \/ (d = 0 /\ st = Some (true, rest)) \/
   exists f l, S (length l) = d /\ st = Some (f, l ++ true :: rest)) ->
  fold_left dstep (map kind w) st = None \/
  fold_left dstep (map kind w) st = Some (true, rest).
Proof.
  induction w as [|x w IH]; intros d st Hr Hst.
  - cbn in Hr |- *. apply Nat.eqb_eq in Hr. subst d.
    destruct Hst as [->|[[_ ->]|(f & l & Hl & ->)]]; auto. lia.
  - cbn [toplevel_run] in Hr. cbn [map fold_left].
    destruct Hst as [->|[[-> ->]|(f & l & <- & ->)]];
      [left; apply dstep_none| |];
      destruct (kind x); cbn [is_operand arith_op is_addop is_mulop is_relop
                              orb andb Nat.ltb Nat.leb] in Hr;
      try discriminate Hr; cbn [dstep is_operand arith_op is_addop is_mulop
                                is_relop orb andb app].
    all: try (apply (IH 0 _ Hr); right; left; split; reflexivity).
    all: try (apply (IH _ _ Hr); right; right; exists f, l; split; reflexivity).
    all: try (destruct f; [left; apply dstep_none|];
              apply (IH _ _ Hr); right; right; exists true, l; split; reflexivity).
    + apply (IH 1 _ Hr). right; right. exists false, []. split; reflexivity.
    + apply (IH _ _ Hr). right; right. exists false, (f :: l). split; reflexivity.
    + destruct l as [|b l].
      * apply (IH 0 _ Hr). right; left. split; reflexivity.
      * apply (IH _ _ Hr). right; right. exists b, l. split; reflexivity.
Qed.

Lemma dstate_chain pre r1 w r2 post :
  is_relop (kind r1) = true -> is_relop (kind r2) = true ->
  toplevel_run 0 w = true ->
  fold_left dstep (map kind (pre ++ r1 :: w ++ r2 :: post)) (Some (false, [])) = None.
Proof.
  intros R1 R2 Hw.
  rewrite map_app, fold_left_app. cbn [map fold_left].
  destruct (fold_left dstep (map kind pre) (Some (false, []))) as [[top rest]|];
    [|rewrite map_app, fold_left_app; cbn [map fold_left];
      rewrite !dstep_none; reflexivity].
  unfold dstep at 2. rewrite R1.
  destruct top; [rewrite map_app, fold_left_app; cbn [map fold_left];
                 rewrite !dstep_none; reflexivity|].
  rewrite map_app, fold_left_app. cbn [map fold_left].
  destruct (dstep_run rest w 0 (Some (true, rest)) Hw
              (or_intror (or_introl (conj eq_refl eq_refl)))) as [E|E];
    rewrite E; [rewrite !dstep_none; reflexivity|].
  unfold dstep at 2. rewrite R2. apply dstep_none.
Qed.

(** C2: the error flag is set exactly when a diagnostic was written; and
    when [parse] returns with the flag unset, the tree is complete: every
    node has the children its kind requires (every nested sequence is a
    non-empty chain), and, for a token source that contains no [ENDFILE]
    token, the sibling chains have one link per [;] of the input, so no
    statement of a sequence is missing from its chain. *)
Theorem complete_tree (n : nat) (ts : list token) (t : option TreeNode)
    (s : state) :
  parse_fuel n ts = Some (t, s) ->
  (Error s = true <-> diags s <> []) /\
  (Error s = false ->
   req complete_stmt t = true /\
   (no_endfile ts = true -> count_semis ts = seps_opt t)).
Proof.
  intros H. split; [exact (parse_flag _ _ _ _ H)|]. intros Er.
  destruct (parse_fuel_inv _ _ _ _ H Er) as [E K].
  destruct (inv_seq _ (parse_invariant n) _ _ _ (le_n 1 : 1 <= pos (advance (init ts))) E Er
              ltac:(cbv; discriminate)) as (O & C & _).
  split; [exact O|]. intros NE.
  destruct (routines_frame n) as (Hseq & _).
  destruct (Hseq _ _ _ E) as (T & _). cbn [toks advance init] in T.
  rewrite <- T in NE.
  destruct (consumed_full s NE K) as (pad & Cs & Pd).
  unfold cnt in C. rewrite Cs, T, count_semis_app, (count_semis_eof pad Pd) in C.
  change (count_semis (consumed (advance (init ts)))) with 0 in C.
  lia.
Qed.

Lemma complete_tree_witness :
  parse_fuel 28 two_stmt_input =
    Some (Some two_stmt_tree, mkState two_stmt_input 7 false []) /\
  no_endfile two_stmt_input = true /\
  req complete_stmt (Some two_stmt_tree) = true /\
  count_semis two_stmt_input = seps_opt (Some two_stmt_tree).
Proof.
  assert (H : parse_fuel 28 two_stmt_input =
                Some (Some two_stmt_tree, mkState two_stmt_input 7 false []))
    by (vm_compute; reflexivity).
  split; [exact H|]. split; [reflexivity|].
  destruct (proj2 (complete_tree _ _ _ _ H) eq_refl) as [O C].
  split; [exact O | exact (C eq_refl)].
Defined.

(** C5: [exp] parses one [simple_exp] and, when the next token is [<], [=]
    or [>], consumes exactly that operator and one more [simple_exp]; so a
    second relational operator at the same parenthesis level (the tokens
    between the two are operands, arithmetic operators and balanced
    parenthesised groups) in a token source that contains no [ENDFILE]
    token always makes the parse record a diagnostic and set the error
    flag. *)
Theorem relational_no_chain (n : nat) (ts pre w post : list token)
    (r1 r2 : token) (t : option TreeNode) (s : state) :
  no_endfile ts = true -> ts = pre ++ r1 :: w ++ r2 :: post ->
  is_relop (kind r1) = true -> is_relop (kind r2) = true ->
  toplevel_run 0 w = true ->
  parse_fuel n ts = Some (t, s) ->
  (forall m s0 t0 s1, simple_exp m s0 = Some (t0, s1) ->
     exp (S m) s0 =
     if is_relop (kind (cur s1)) then
       match simple_exp m (advance s1) with
       | Some (c1, s2) => Some (Some (expNode OpK t0 c1 (AOp (kind (cur s1)))), s2)
       | None => None
       end
     else Some (t0, s1)) /\
  Error s = true /\ diags s <> [].
Proof.
  intros NE Ets R1 R2 Hw H. split.
  { intros m s0 t0 s1 Hs. cbn [exp]. unfold bind at 1. rewrite Hs.
    rewrite bind_token_kind. destruct (is_relop (kind (cur s1))); [|reflexivity].
    rewrite match_hit by reflexivity. unfold bind.
    destruct (simple_exp m (advance s1)) as [[c1 s2]|]; reflexivity. }
  destruct (Error s) eqn:Er.
  { split; [reflexivity | apply (parse_flag _ _ _ _ H); exact Er]. }
  exfalso.
  destruct (parse_fuel_inv _ _ _ _ H Er) as [E K].
  destruct (inv_seq _ (parse_invariant n) _ _ _ (le_n 1 : 1 <= pos (advance (init ts))) E Er
              ltac:(cbv; discriminate)) as (_ & _ & D).
  destruct (routines_frame n) as (Hseq & _).
  destruct (Hseq _ _ _ E) as (T & _). cbn [toks advance init] in T.
  rewrite <- T in NE.
  destruct (consumed_full s NE K) as (pad & Cs & _).
  apply D. unfold dstate. rewrite Cs, T, Ets, map_app, fold_left_app.
  rewrite (dstate_chain pre r1 w r2 post R1 R2 Hw). apply dstep_none.
Qed.

Lemma relational_no_chain_witness :
  exists t s, parse_fuel 28 chained_input = Some (t, s) /\
              Error s = true /\ diags s <> [].
Proof.
  destruct (parse_fuel 28 chained_input) as [[t s]|] eqn:E;
    [|vm_compute in E; discriminate E].
  exists t, s. split; [reflexivity|].
  exact (proj2 (relational_no_chain 28 chained_input [tk WRITE; number "1"]
                  [number "2"] [number "3"] (tk LT) (tk LT) t s
                  ltac:(reflexivity) ltac:(reflexivity) ltac:(reflexivity)
                  ltac:(reflexivity) ltac:(reflexivity) E)).
Defined.

(** ** Further properties of the parser *)

(** *** Progress of [statement] *)

(** X2: [statement] always consumes at least one token, whatever the
    lookahead, so the loop of [stmt_sequence] always makes progress. *)
Theorem statement_consumes (n : nat) (s : state) (r : option TreeNode)
    (s' : state) :
  statement n s = Some (r, s') -> pos s < pos s'.
Proof.
  intros H. destruct (TokenType_beq (kind (cur s)) ENDFILE) eqn:K.
  - apply beq_true in K. destruct n as [|n]; [discriminate|].
    cbn [statement] in H. rewrite bind_token_kind, K in H.
    injection H as _ <-. simpl. lia.
  - apply (statement_progress n s r s' H). apply beq_false, K.
Qed.

Lemma statement_consumes_witness :
  statement 5 (advance (init [])) =
    Some (None, advance (record_error unexpected (advance (init [])))) /\
  pos (advance (init [])) <
    pos (advance (record_error unexpected (advance (init [])))).
Proof.
  assert (H : statement 5 (advance (init [])) =
    Some (None, advance (record_error unexpected (advance (init [])))))
    by reflexivity.
  split; [exact H | exact (statement_consumes _ _ _ _ H)].
Defined.

(** *** The diagnostics of [parse] *)

Lemma diag_refl s : diag_ext s s.
Proof. exists []. rewrite app_nil_r. split; [reflexivity | constructor]. Qed.

Lemma diag_trans s1 s2 s3 : diag_ext s1 s2 -> diag_ext s2 s3 -> diag_ext s1 s3.
Proof.
  intros (d1 & D1 & F1) (d2 & D2 & F2). exists (d1 ++ d2).
  split; [rewrite D2, D1, app_assoc; reflexivity | apply Forall_app; auto].
Qed.

Lemma diag_advance s : diag_ext s (advance s).
Proof. exists []. split; [simpl; rewrite app_nil_r; reflexivity | constructor]. Qed.

Lemma diag_syntaxError : preserves diag_ext (syntaxError unexpected).
Proof.
  intros s a s' H. injection H as _ <-. exists [unexpected].
  split; [reflexivity | repeat constructor].
Qed.

Lemma diag_match e : preserves diag_ext (match_ e).
Proof.
  apply (pres_bind diag_ext diag_trans); [apply (pres_token_kind diag_ext diag_refl)|].
  intro tk. destruct (TokenType_beq tk e);
    [apply (pres_getToken diag_ext diag_advance) | apply diag_syntaxError].
Qed.

Ltac diag_step :=
  first
    [ apply (pres_bind diag_ext diag_trans); [| intro]
    | apply (pres_ret diag_ext diag_refl) | apply (pres_fail diag_ext)
    | apply (pres_token_kind diag_ext diag_refl)
    | apply (pres_tokenString diag_ext diag_refl)
    | apply (pres_getToken diag_ext diag_advance)
    | apply diag_syntaxError
    | apply diag_match
    | match goal with
      | |- preserves diag_ext (if ?b then _ else _) => destruct b
      | |- preserves diag_ext (match ?t with _ => _ end) => destruct t
      end
    | assumption
    | match goal with H : forall x, preserves diag_ext _ |- _ => apply H end ].

Lemma routines_diag : forall n, for_all_routines (preserves diag_ext) n.
Proof.
  induction n as [|n IH].
  - repeat split; intros; apply (pres_fail diag_ext).
  - split_routines IH.
    repeat split; intros; simpl; repeat diag_step.
Qed.

(** X4: Every diagnostic [parse] writes is the unexpected-token message,
    except the trailing-input message, which can only be the last one. *)
Theorem parse_diagnostics (n : nat) (ts : list token) (t : option TreeNode)
    (s : state) :
  parse_fuel n ts = Some (t, s) ->
  exists d, Forall (eq unexpected) d /\
            (diags s = d \/ diags s = d ++ [code_ends]).
Proof.
  unfold parse_fuel, parse_body. rewrite bind_getToken. intros H.
  apply bind_inv in H. destruct H as (t1 & s1 & E & H).
  destruct (routines_diag n) as (Hseq & _).
  destruct (Hseq _ _ _ E) as (d & D & F). cbn [diags advance init app] in D.
  rewrite bind_token_kind in H.
  destruct (TokenType_beq (kind (cur s1)) ENDFILE); cbv [bind ret] in H.
  - injection H as _ <-. exists d. auto.
  - injection H as _ <-. exists d. split; [exact F|]. right. simpl. rewrite D. reflexivity.
Qed.

Lemma parse_diagnostics_witness :
  parse_fuel 10 [tk SEMI; tk END] =
    Some (None, record_error code_ends
                  (advance (record_error unexpected (advance (init [tk SEMI; tk END]))))) /\
  exists d, Forall (eq unexpected) d /\
    (diags (record_error code_ends
              (advance (record_error unexpected (advance (init [tk SEMI; tk END]))))) = d \/
     diags (record_error code_ends
              (advance (record_error unexpected (advance (init [tk SEMI; tk END]))))) =
       d ++ [code_ends]).
Proof.
  assert (H : parse_fuel 10 [tk SEMI; tk END] =
    Some (None, record_error code_ends
                  (advance (record_error unexpected (advance (init [tk SEMI; tk END]))))))
    by reflexivity.
  split; [exact H | exact (parse_diagnostics _ _ _ _ H)].
Defined.

(** *** An error-free parse reads the whole token source *)

(** X5: When [parse] returns with the error flag unset, on a token source
    with no [ENDFILE] token, every token of the source has been fetched
    and consumed. *)
Theorem error_free_reads_all (n : nat) (ts : list token)
    (t : option TreeNode) (s : state) :
  parse_fuel n ts = Some (t, s) -> Error s = false -> no_endfile ts = true ->
  length ts < pos s.
Proof.
  intros H Er NE. destruct (parse_fuel_inv _ _ _ _ H Er) as [E K].
  destruct (routines_frame n) as (Hseq & _).
  destruct (Hseq _ _ _ E) as (T & P & _). cbn [toks pos advance init] in T, P.
  unfold cur in K. rewrite T in K.
  destruct (Nat.le_gt_cases (length ts) (pred (pos s))) as [L|L]; [lia|].
  exfalso. unfold no_endfile in NE. rewrite forallb_forall in NE.
  specialize (NE _ (nth_In _ eofTok L)). rewrite K in NE. discriminate NE.
Qed.

Lemma error_free_reads_all_witness :
  parse_fuel 28 two_stmt_input =
    Some (Some two_stmt_tree, mkState two_stmt_input 7 false []) /\
  length two_stmt_input < pos (mkState two_stmt_input 7 false []).
Proof.
  assert (H : parse_fuel 28 two_stmt_input =
                Some (Some two_stmt_tree, mkState two_stmt_input 7 false []))
    by (vm_compute; reflexivity).
  split; [exact H|]. exact (error_free_reads_all _ _ _ _ H eq_refl eq_refl).
Defined.

(** *** What [statement] returns *)

Lemma yields_ret {A} (P : A -> Prop) a : P a -> yields P (ret a).
Proof. intros Ha s b s' H. injection H as <- _. exact Ha. Qed.

Lemma yields_bind {A B} (P : B -> Prop) (m : M A) (k : A -> M B) :
  (forall a, yields P (k a)) -> yields P (bind m k).
Proof.
  intros Hk s b s' H. unfold bind in H.
  destruct (m s) as [[a s1]|]; [exact (Hk a _ _ _ H) | discriminate].
Qed.

Lemma stmt_routines_node n :
  yields (is_stmt_node IfK) (if_stmt (S n)) /\
  yields (is_stmt_node RepeatK) (repeat_stmt (S n)) /\
  yields (is_stmt_node AssignK) (assign_stmt (S n)) /\
  yields (is_stmt_node ReadK) (read_stmt (S n)) /\
  yields (is_stmt_node WriteK) (write_stmt (S n)) /\
  yields (is_stmt_node WhileK) (while_stmt (S n)) /\
  yields (is_stmt_node DoWhileK) (dowhile_stmt (S n)) /\
  yields (is_stmt_node ForK) (for_stmt (S n)).
Proof.
  repeat split; cbn [if_stmt repeat_stmt assign_stmt read_stmt write_stmt
                     while_stmt dowhile_stmt for_stmt];
    repeat first
      [ apply yields_bind; intro
      | apply yields_ret; do 4 eexists; reflexivity ].
Qed.

(** X6: [statement] returns a node exactly when the lookahead is one of the
    eight tokens it dispatches on, even when parsing that statement writes
    diagnostics; the node has the kind that token selects and no
    sibling. *)
Theorem statement_node_kind (n : nat) (s : state) (r : option TreeNode)
    (s' : state) :
  statement n s = Some (r, s') ->
  option_map nodekind r = option_map StmtK (keyword_kind (kind (cur s))) /\
  forall x, r = Some x -> sibling x = None.
Proof.
  intros H. destruct n as [|n]; [discriminate|]. cbn [statement] in H.
  rewrite bind_token_kind in H.
  destruct (kind (cur s)) eqn:K;
    try (cbv [bind ret syntaxError getToken] in H; injection H as <- _;
         split; [reflexivity | discriminate]);
    (destruct n as [|n]; [discriminate|]);
    destruct (stmt_routines_node n) as (Ai & Ar & Aa & Ard & Aw & Awh & Ad & Af);
    match goal with
    | A : yields (is_stmt_node _) (?f (S n)) |- _ =>
        match type of H with ?f (S n) s = _ => apply A in H end
    end;
    destruct H as (c0 & c1 & c2 & a & ->);
    (split; [reflexivity | intros x Hx; injection Hx as <-; reflexivity]).
Qed.

Lemma statement_node_kind_witness :
  statement 6 (advance (init [tk READ; ident "x"])) =
    Some (Some (stmtNode ReadK None None None (AName "x")),
          advance (advance (advance (init [tk READ; ident "x"])))) /\
  option_map nodekind (Some (stmtNode ReadK None None None (AName "x"))) =
    option_map StmtK (keyword_kind (kind (cur (advance (init [tk READ; ident "x"]))))) /\
  forall x, Some (stmtNode ReadK None None None (AName "x")) = Some x ->
            sibling x = None.
Proof.
  assert (H : statement 6 (advance (init [tk READ; ident "x"])) =
    Some (Some (stmtNode ReadK None None None (AName "x")),
          advance (advance (advance (init [tk READ; ident "x"])))))
    by reflexivity.
  split; [exact H | exact (statement_node_kind _ _ _ _ H)].
Defined.
(** *** Printing and parsing *)

Lemma pos_iter k s : pos (Nat.iter k advance s) = k + pos s.
Proof. induction k as [|k IH]; simpl; [reflexivity | rewrite IH; reflexivity]. Qed.

Lemma iter_advance_swap k s :
  Nat.iter k advance (advance s) = advance (Nat.iter k advance s).
Proof. induction k as [|k IH]; simpl; [reflexivity | rewrite IH; reflexivity]. Qed.

Lemma iter_state k s :
  Nat.iter k advance s = mkState (toks s) (k + pos s) (Error s) (diags s).
Proof.
  induction k as [|k IH]; [destruct s; reflexivity|].
  simpl. rewrite IH. reflexivity.
Qed.

Lemma skipn_length_app {A} (L r : list A) : skipn (length L) (L ++ r) = r.
Proof. induction L; simpl; auto. Qed.

Lemma reads_list_eq {A} (m : nat -> M A) L1 L2 rest v :
  L1 = L2 -> reads m L1 rest v -> reads m L2 rest v.
Proof. intros <-. exact (fun H => H). Qed.

Lemma reads_val_eq {A} (m : nat -> M A) L rest v1 v2 :
  v1 = v2 -> reads m L rest v1 -> reads m L rest v2.
Proof. intros <-. exact (fun H => H). Qed.

Lemma reads_ret {A} (a : A) rest : reads (fun _ => ret a) [] rest a.
Proof. intros s _ _. exists 0. intros k _. reflexivity. Qed.

Lemma reads_bind {A B} (F : nat -> M A) (G : nat -> A -> M B) L1 L2 rest a b :
  reads F L1 (L2 ++ rest) a -> reads (fun k => G k a) L2 rest b ->
  reads (fun k => bind (F k) (G k)) (L1 ++ L2) rest b.
Proof.
  intros HF HG s P Hs. rewrite <- app_assoc in Hs.
  destruct (HF s P Hs) as [n1 E1].
  assert (P1 : 1 <= pos (Nat.iter (length L1) advance s)) by (rewrite pos_iter; lia).
  assert (S1 : stream (Nat.iter (length L1) advance s) = L2 ++ rest)
    by (rewrite stream_iter, Hs, skipn_length_app by exact P; reflexivity).
  destruct (HG _ P1 S1) as [n2 E2].
  exists (Nat.max n1 n2). intros k Hk.
  unfold bind at 1. rewrite (E1 k) by lia.
  rewrite (E2 k) by lia.
  rewrite <- Nat.iter_add, length_app, Nat.add_comm. reflexivity.
Qed.

Lemma reads_bind0 {A B} (F : nat -> M A) (G : nat -> A -> M B) L rest a b :
  reads F L rest a -> reads (fun k => G k a) [] rest b ->
  reads (fun k => bind (F k) (G k)) L rest b.
Proof.
  intros HF HG. apply (reads_list_eq _ (L ++ [])); [apply app_nil_r|].
  apply (reads_bind F G L [] rest a b); [exact HF | exact HG].
Qed.

Lemma reads_match {B} e t (G : nat -> unit -> M B) L rest b :
  kind t = e -> reads (fun k => G k tt) L rest b ->
  reads (fun k => bind (match_ e) (G k)) (t :: L) rest b.
Proof.
  intros K HG s P Hs.
  assert (C : kind (cur s) = e) by (rewrite cur_stream, Hs; exact K).
  assert (S1 : stream (advance s) = L ++ rest)
    by (rewrite stream_advance, Hs by exact P; reflexivity).
  assert (P1 : 1 <= pos (advance s)) by (simpl; lia).
  destruct (HG _ P1 S1) as [n E].
  exists n. intros k Hk. rewrite match_hit by exact C.
  rewrite (E k Hk), iter_advance_swap. reflexivity.
Qed.

Lemma reads_token_kind {B} (G : nat -> TokenType -> M B) L rest x b :
  kind (hd eofTok (L ++ rest)) = x -> reads (fun k => G k x) L rest b ->
  reads (fun k => bind token_kind (G k)) L rest b.
Proof.
  intros X HG s P Hs. destruct (HG s P Hs) as [n E]. exists n. intros k Hk.
  rewrite bind_token_kind, cur_stream, Hs, X. apply (E k Hk).
Qed.

Lemma reads_tokenString {B} (G : nat -> string -> M B) L rest x b :
  lexeme (hd eofTok (L ++ rest)) = x -> reads (fun k => G k x) L rest b ->
  reads (fun k => bind tokenString (G k)) L rest b.
Proof.
  intros X HG s P Hs. destruct (HG s P Hs) as [n E]. exists n. intros k Hk.
  rewrite bind_tokenString, cur_stream, Hs, X. apply (E k Hk).
Qed.

Lemma reads_ret_bind {A B} (a : A) (G : nat -> A -> M B) L rest b :
  reads (fun k => G k a) L rest b ->
  reads (fun k => bind (ret a) (G k)) L rest b.
Proof. intros HG s P Hs. destruct (HG s P Hs) as [n E]. exists n. exact E. Qed.

Lemma reads_succ {A} (R body : nat -> M A) L rest v :
  (forall k, R (S k) = body k) -> reads body L rest v -> reads R L rest v.
Proof.
  intros Eq HB s P Hs. destruct (HB s P Hs) as [n E]. exists (S n).
  intros [|k] Hk; [lia|]. rewrite Eq. apply E. lia.
Qed.

Ltac rd_unfold R :=
  eapply (reads_succ R); [intros ?k; cbn [R]; reflexivity | cbv beta].

Ltac rd_unfold_loop R t :=
  eapply (reads_succ (fun k => R k t)); [intros ?k; cbn [R]; reflexivity | cbv beta].

Ltac rd_red :=
  cbv beta iota delta [TokenType_beq is_relop is_addop is_mulop seq_end].

Ltac rd_kind0 :=
  eapply reads_token_kind; [cbn [hd app kind tk ident number]; reflexivity | cbv beta].

Ltac rd_kind :=
  eapply reads_token_kind; [cbn [hd app kind tk ident number]; reflexivity | rd_red].

Ltac rd_string :=
  eapply reads_tokenString; [cbn [hd app lexeme tk ident number]; reflexivity | rd_red].

Ltac rd_step :=
  first
    [ apply reads_match; [reflexivity | cbv beta]
    | rd_kind
    | rd_string
    | apply reads_ret_bind; cbv beta
    | apply reads_ret ].

(** **** Expressions *)

Lemma rd_factor_leaf t rest :
  operand t = true -> reads factor [t] rest (Some (leaf t)).
Proof.
  intros O s P Hs. exists 1. intros [|k] Hk; [lia|].
  assert (C : cur s = t) by (rewrite cur_stream, Hs; reflexivity).
  rewrite factor_operand by (rewrite C; exact O). rewrite C. reflexivity.
Qed.

Lemma rd_factor_paren L rest v :
  reads exp L (tk RPAREN :: rest) v ->
  reads factor (tk LPAREN :: L ++ [tk RPAREN]) rest v.
Proof.
  intros HE. rd_unfold factor. rd_kind. rd_step.
  apply reads_bind with (a := v); [exact HE|]. repeat rd_step.
Qed.

Lemma rd_tloop_stop t rest :
  is_mulop (kind (hd eofTok rest)) = false -> reads (fun k => term_loop k t) [] rest t.
Proof.
  intros Hm. rd_unfold_loop term_loop t.
  rd_kind0. rewrite Hm. apply reads_ret.
Qed.

Lemma rd_sloop_stop t rest :
  is_addop (kind (hd eofTok rest)) = false ->
  reads (fun k => simple_exp_loop k t) [] rest t.
Proof.
  intros Ha. rd_unfold_loop simple_exp_loop t.
  rd_kind0. rewrite Ha. apply reads_ret.
Qed.

Lemma rd_term_one L rest v :
  reads factor L rest v -> is_mulop (kind (hd eofTok rest)) = false ->
  reads term L rest v.
Proof.
  intros HF Hm. rd_unfold term. apply reads_bind0 with (a := v); [exact HF|].
  apply rd_tloop_stop, Hm.
Qed.

Lemma rd_term_mul L1 L2 rest op a b :
  reads factor L1 (tk op :: L2 ++ rest) a -> is_mulop op = true ->
  reads factor L2 rest b -> is_mulop (kind (hd eofTok rest)) = false ->
  reads term (L1 ++ tk op :: L2) rest (Some (expNode OpK a b (AOp op))).
Proof.
  intros H1 Hop H2 Hm. rd_unfold term. apply reads_bind with (a := a); [exact H1|].
  rd_unfold_loop term_loop a. rd_kind0. rewrite Hop.
  apply reads_match; [reflexivity|]. cbv beta.
  apply reads_bind0 with (a := b); [exact H2|]. apply rd_tloop_stop, Hm.
Qed.

Lemma rd_sexp_one L rest v :
  reads term L rest v -> is_addop (kind (hd eofTok rest)) = false ->
  reads simple_exp L rest v.
Proof.
  intros HT Ha. rd_unfold simple_exp. apply reads_bind0 with (a := v); [exact HT|].
  apply rd_sloop_stop, Ha.
Qed.

Lemma rd_sexp_add L1 L2 rest op a b :
  reads term L1 (tk op :: L2 ++ rest) a -> is_addop op = true ->
  reads term L2 rest b -> is_addop (kind (hd eofTok rest)) = false ->
  reads simple_exp (L1 ++ tk op :: L2) rest (Some (expNode OpK a b (AOp op))).
Proof.
  intros H1 Hop H2 Ha. rd_unfold simple_exp. apply reads_bind with (a := a); [exact H1|].
  rd_unfold_loop simple_exp_loop a. rd_kind0. rewrite Hop.
  apply reads_match; [reflexivity|]. cbv beta.
  apply reads_bind0 with (a := b); [exact H2|]. apply rd_sloop_stop, Ha.
Qed.

Lemma rd_exp_one L rest v :
  reads simple_exp L rest v -> is_relop (kind (hd eofTok rest)) = false ->
  reads exp L rest v.
Proof.
  intros HS Hr. rd_unfold exp. apply reads_bind0 with (a := v); [exact HS|].
  rd_kind0. rewrite Hr. apply reads_ret.
Qed.

Lemma rd_exp_rel L1 L2 rest op a b :
  reads simple_exp L1 (tk op :: L2 ++ rest) a -> is_relop op = true ->
  reads simple_exp L2 rest b ->
  reads exp (L1 ++ tk op :: L2) rest (Some (expNode OpK a b (AOp op))).
Proof.
  intros H1 Hop H2. rd_unfold exp. apply reads_bind with (a := a); [exact H1|].
  rd_kind0. rewrite Hop.
  apply reads_match; [reflexivity|]. cbv beta.
  apply reads_bind0 with (a := b); [exact H2|]. apply reads_ret.
Qed.

(** **** Numbers *)

Lemma digit_ok d : d < 10 -> digit_val (ascii_of_nat (48 + d)) = Some (Z.of_nat d).
Proof. intros H. do 10 (destruct d as [|d]; [reflexivity|]). lia. Qed.

Lemma nat_digits_value f : forall n acc, n < f ->
  exists k, forall a, atoi_digits (nat_digits f n acc) a =
                      atoi_digits acc (a * 10 ^ Z.of_nat k + Z.of_nat n)%Z.
Proof.
  induction f as [|f IH]; intros n acc H; [lia|].
  cbn [nat_digits]. destruct (Nat.ltb n 10) eqn:L.
  - apply Nat.ltb_lt in L. exists 1. intros a. cbn [atoi_digits].
    rewrite digit_ok by (apply Nat.mod_upper_bound; lia).
    rewrite Nat.mod_small by lia. f_equal. change (Z.of_nat 1) with 1%Z. rewrite Z.pow_1_r. lia.
  - apply Nat.ltb_ge in L.
    destruct (IH (n / 10) (String (ascii_of_nat (48 + n mod 10)) acc))
      as [k Hk]; [pose proof (Nat.div_lt n 10 ltac:(lia) ltac:(lia)); lia|].
    exists (S k). intros a. rewrite Hk. cbn [atoi_digits].
    rewrite digit_ok by (apply Nat.mod_upper_bound; lia). f_equal.
    rewrite Nat2Z.inj_succ, Z.pow_succ_r by lia.
    pose proof (Nat.div_mod_eq n 10) as D.
    assert (D' : Z.of_nat n = (10 * Z.of_nat (n / 10) + Z.of_nat (n mod 10))%Z) by lia.
    rewrite D'. ring.
Qed.

Lemma nat_digits_head f : forall n acc, 0 < f ->
  exists d r, d < 10 /\ nat_digits f n acc = String (ascii_of_nat (48 + d)) r.
Proof.
  induction f as [|f IH]; intros n acc H; [lia|].
  cbn [nat_digits]. destruct (Nat.ltb n 10).
  - exists (n mod 10), acc. split; [apply Nat.mod_upper_bound; lia | reflexivity].
  - destruct f as [|f].
    + exists (n mod 10), acc. split; [apply Nat.mod_upper_bound; lia | reflexivity].
    + apply IH. lia.
Qed.

Lemma atoi_digit d r : d < 10 ->
  atoi (String (ascii_of_nat (48 + d)) r) =
  atoi_digits (String (ascii_of_nat (48 + d)) r) 0.
Proof. intros H. do 10 (destruct d as [|d]; [reflexivity|]). lia. Qed.

(** [atoi] reads back the lexeme of a non-negative number. *)
Lemma atoi_num_lexeme v : (0 <= v)%Z -> atoi (num_lexeme v) = v.
Proof.
  intros Hv. unfold num_lexeme.
  destruct (nat_digits_head (S (Z.to_nat v)) (Z.to_nat v) "") as (d & r & Hd & E);
    [lia|].
  rewrite E, atoi_digit, <- E by exact Hd.
  destruct (nat_digits_value (S (Z.to_nat v)) (Z.to_nat v) "") as [k Hk]; [lia|].
  rewrite Hk. cbn [atoi_digits]. rewrite Z2Nat.id by exact Hv. ring.
Qed.

(** **** Printed expressions *)

Lemma print_exp_op l r c2 sib a :
  print_exp (mkNode (Some l) (Some r) c2 sib (ExpK OpK) a) =
  print_operand l ++ tk (op_of a) :: print_operand r.
Proof. reflexivity. Qed.

Lemma op_class op :
  is_relop op || arith_op op = true ->
  (is_relop op = true /\ is_addop op = false /\ is_mulop op = false) \/
  (is_relop op = false /\ is_addop op = true /\ is_mulop op = false) \/
  (is_relop op = false /\ is_addop op = false /\ is_mulop op = true).
Proof. destruct op; simpl; auto; discriminate. Qed.

Lemma exp_reads : forall e, complete_exp e = true -> consts_nonneg e = true ->
  (forall rest, is_relop (kind (hd eofTok rest)) = false ->
                arith_op (kind (hd eofTok rest)) = false ->
                reads exp (print_exp e) rest (Some e)) /\
  (forall rest, reads factor (print_operand e) rest (Some e)).
Proof.
  fix IH 1. intros [c0 c1 c2 sib [sk|[| |]] a] C N; [discriminate C| | |].
  - cbn [complete_exp] in C. rewrite !andb_true_iff in C.
    destruct C as [[[[Ca C0] C1] C2] Cs].
    destruct c0 as [l|]; [|discriminate]. destruct c1 as [r|]; [|discriminate].
    destruct c2; [discriminate|]. destruct sib; [discriminate|].
    destruct a as [|op| |]; try discriminate. cbn [op_attr] in Ca.
    cbn [consts_nonneg] in N. rewrite !andb_true_iff in N.
    destruct N as [[[[_ Nl] Nr] _] _].
    destruct (IH l C0 Nl) as [_ Fl]. destruct (IH r C1 Nr) as [_ Fr].
    assert (E : forall rest, is_relop (kind (hd eofTok rest)) = false ->
                  arith_op (kind (hd eofTok rest)) = false ->
                  reads exp (print_exp (mkNode (Some l) (Some r) None None (ExpK OpK) (AOp op)))
                    rest (Some (mkNode (Some l) (Some r) None None (ExpK OpK) (AOp op)))).
    { intros rest R1 R2. apply arith_op_false in R2. destruct R2 as [R2 R3].
      rewrite print_exp_op. cbn [op_of].
      destruct (op_class op Ca) as [(X1 & X2 & X3)|[(X1 & X2 & X3)|(X1 & X2 & X3)]].
      - apply rd_exp_rel; [| exact X1 |].
        + apply rd_sexp_one; [apply rd_term_one; [apply Fl|] |];
            cbn [hd kind tk]; assumption.
        + apply rd_sexp_one; [apply rd_term_one; [apply Fr|] |]; assumption.
      - apply rd_exp_one; [|exact R1]. apply rd_sexp_add; [| exact X2 | | exact R2].
        + apply rd_term_one; [apply Fl|]. cbn [hd kind tk]. exact X3.
        + apply rd_term_one; [apply Fr | exact R3].
      - apply rd_exp_one; [|exact R1]. apply rd_sexp_one; [|exact R2].
        apply rd_term_mul; [apply Fl | exact X3 | apply Fr | exact R3]. }
    split; [exact E|]. intros rest. unfold print_operand. cbn [nodekind].
    apply rd_factor_paren. apply E; reflexivity.
  - cbn [complete_exp] in C. rewrite !andb_true_iff in C.
    destruct C as [[[[Ca C0] C1] C2] Cs].
    destruct c0; [discriminate|]. destruct c1; [discriminate|].
    destruct c2; [discriminate|]. destruct sib; [discriminate|].
    destruct a as [| |v|]; try discriminate.
    cbn [consts_nonneg] in N. rewrite !andb_true_iff in N.
    destruct N as [[[[Nv _] _] _] _]. apply Z.leb_le in Nv.
    assert (F : forall rest, reads factor [number (num_lexeme v)] rest
                  (Some (mkNode None None None None (ExpK ConstK) (AVal v)))).
    { intros rest. eapply reads_val_eq; [|apply rd_factor_leaf; reflexivity].
      cbn [leaf number kind lexeme]. rewrite atoi_num_lexeme by exact Nv. reflexivity. }
    split.
    + intros rest R1 R2. apply arith_op_false in R2. destruct R2 as [R2 R3].
      apply rd_exp_one; [|exact R1]. apply rd_sexp_one; [|exact R2].
      apply rd_term_one; [apply F | exact R3].
    + intros rest. apply F.
  - cbn [complete_exp] in C. rewrite !andb_true_iff in C.
    destruct C as [[[[Ca C0] C1] C2] Cs].
    destruct c0; [discriminate|]. destruct c1; [discriminate|].
    destruct c2; [discriminate|]. destruct sib; [discriminate|].
    destruct a as [| | |x]; try discriminate.
    assert (F : forall rest, reads factor [ident x] rest
                  (Some (mkNode None None None None (ExpK IdK) (AName x)))).
    { intros rest. apply rd_factor_leaf. reflexivity. }
    split.
    + intros rest R1 R2. apply arith_op_false in R2. destruct R2 as [R2 R3].
      apply rd_exp_one; [|exact R1]. apply rd_sexp_one; [|exact R2].
      apply rd_term_one; [apply F | exact R3].
    + intros rest. apply F.
Qed.

(** **** Printed statements *)

Lemma link_chain : forall t, link (chain_nodes t) = Some t.
Proof.
  fix IH 1. intros [c0 c1 c2 [u|] k a]; cbn [chain_nodes link];
    [rewrite IH|]; reflexivity.
Qed.

Lemma follow_exp k :
  stmt_follow k = true -> is_relop k = false /\ arith_op k = false.
Proof. destruct k; try discriminate; split; reflexivity. Qed.

Lemma seq_end_follow k : seq_end k = true -> stmt_follow k = true.
Proof. intros H. unfold stmt_follow. rewrite H. apply orb_true_r. Qed.

Lemma operand_head e : complete_exp e = true ->
  exists t L, print_operand e = t :: L /\
              (kind t = NUM \/ kind t = ID \/ kind t = LPAREN).
Proof.
  destruct e as [c0 c1 c2 sib [sk|[| |]] a]; intros C; try discriminate C;
    unfold print_operand; cbn [nodekind print_exp]; eexists _, _;
    (split; [reflexivity | cbn; auto]).
Qed.

Lemma sexp_operand e rest :
  complete_exp e = true -> consts_nonneg e = true ->
  is_addop (kind (hd eofTok rest)) = false ->
  is_mulop (kind (hd eofTok rest)) = false ->
  reads simple_exp (print_operand e) rest (Some e).
Proof.
  intros C N Ha Hm. apply rd_sexp_one; [|exact Ha].
  apply rd_term_one; [apply (proj2 (exp_reads e C N)) | exact Hm].
Qed.

Ltac exp_at e K N :=
  apply (proj1 (exp_reads e K N));
  [ first [reflexivity | apply follow_exp; assumption]
  | first [reflexivity | apply follow_exp; assumption] ].

Lemma stmt_reads : forall t, complete_stmt t = true -> consts_nonneg t = true ->
  (forall rest, stmt_follow (kind (hd eofTok rest)) = true ->
     reads statement (print_stmt (set_sibling t None)) rest
       (Some (set_sibling t None))) /\
  (forall rest, seq_end (kind (hd eofTok rest)) = true ->
     reads stmt_sequence (print_stmt t) rest (Some t)) /\
  (forall acc rest, seq_end (kind (hd eofTok rest)) = true ->
     reads (fun n => stmt_seq_loop n acc) (tk SEMI :: print_stmt t) rest
       (link (acc ++ chain_nodes t))).
Proof.
  fix IH 1. intros [c0 c1 c2 sib [k|ek] a] C N; [|discriminate C].
  cbn [complete_stmt] in C. apply andb_true_iff in C. destruct C as [Ck Cs].
  cbn [consts_nonneg] in N. rewrite !andb_true_iff in N.
  destruct N as [[[[Na N0] N1] N2] Ns].
  assert (ONE : forall rest, stmt_follow (kind (hd eofTok rest)) = true ->
            reads statement (print_stmt (mkNode c0 c1 c2 None (StmtK k) a)) rest
              (Some (mkNode c0 c1 c2 None (StmtK k) a))).
  { intros rest F. destruct k; rewrite !andb_true_iff in Ck.
    - (* if *)
      destruct Ck as [[[K0 K1] K2] Ka].
      destruct c0 as [e0|]; [|discriminate K0]. destruct c1 as [x1|]; [|discriminate K1].
      destruct a; try discriminate Ka. cbn [req optional] in K0, K1, K2.
      destruct c2 as [x2|];
        cbn [print_stmt print_exp_opt]; rewrite app_nil_r;
        rd_unfold statement; rd_kind; rd_unfold if_stmt; rd_step; rd_step;
        (apply reads_bind with (a := Some e0); [exp_at e0 K0 N0|]); cbv beta;
        rd_step; rd_step;
        (apply reads_bind with (a := Some x1);
          [apply (proj1 (proj2 (IH x1 K1 N1))); reflexivity|]); cbv beta.
      + rd_kind.
        apply reads_bind with (a := Some x2);
          [rd_step; apply (proj1 (proj2 (IH x2 K2 N2))); reflexivity|]. cbv beta.
        repeat rd_step.
      + rd_kind. repeat rd_step.
    - (* repeat *)
      destruct Ck as [[[K0 K1] K2] Ka].
      destruct c0 as [x0|]; [|discriminate K0]. destruct c1 as [e1|]; [|discriminate K1].
      destruct c2; [discriminate K2|]. destruct a; try discriminate Ka.
      cbn [req] in K0, K1.
      cbn [print_stmt print_exp_opt]. rewrite app_nil_r.
      rd_unfold statement. rd_kind. rd_unfold repeat_stmt. rd_step.
      apply reads_bind with (a := Some x0);
        [apply (proj1 (proj2 (IH x0 K0 N0))); reflexivity|]. cbv beta.
      rd_step.
      apply reads_bind0 with (a := Some e1); [exp_at e1 K1 N1|]. cbv beta.
      rd_step.
    - (* assign *)
      destruct Ck as [[[K0 K1] K2] Ka].
      destruct c0 as [e0|]; [|discriminate K0]. destruct c1; [discriminate K1|].
      destruct c2; [discriminate K2|]. destruct a as [| | |x]; try discriminate Ka.
      cbn [req] in K0.
      cbn [print_stmt print_exp_opt name_of]. rewrite app_nil_r.
      rd_unfold statement. rd_kind. rd_unfold assign_stmt. rd_step. rd_step.
      rd_step. rd_step.
      apply reads_bind0 with (a := Some e0); [exp_at e0 K0 N0|]. cbv beta.
      rd_step.
    - (* read *)
      destruct Ck as [[[K0 K1] K2] Ka].
      destruct c0; [discriminate K0|]. destruct c1; [discriminate K1|].
      destruct c2; [discriminate K2|]. destruct a as [| | |x]; try discriminate Ka.
      cbn [print_stmt name_of].
      rd_unfold statement. rd_kind. rd_unfold read_stmt. repeat rd_step.
    - (* write *)
      destruct Ck as [[[K0 K1] K2] Ka].
      destruct c0 as [e0|]; [|discriminate K0]. destruct c1; [discriminate K1|].
      destruct c2; [discriminate K2|]. destruct a; try discriminate Ka.
      cbn [req] in K0.
      cbn [print_stmt print_exp_opt]. rewrite app_nil_r.
      rd_unfold statement. rd_kind. rd_unfold write_stmt. rd_step.
      apply reads_bind0 with (a := Some e0); [exp_at e0 K0 N0|]. cbv beta.
      rd_step.
    - (* while *)
      destruct Ck as [[[K0 K1] K2] Ka].
      destruct c0 as [e0|]; [|discriminate K0]. destruct c1 as [x1|]; [|discriminate K1].
      destruct c2; [discriminate K2|]. destruct a; try discriminate Ka.
      cbn [req] in K0, K1.
      cbn [print_stmt print_exp_opt]. rewrite app_nil_r.
      rd_unfold statement. rd_kind. rd_unfold while_stmt. rd_step.
      apply reads_bind with (a := Some e0); [exp_at e0 K0 N0|]. cbv beta.
      rd_step.
      apply reads_bind with (a := Some x1);
        [apply (proj1 (proj2 (IH x1 K1 N1))); reflexivity|]. cbv beta.
      repeat rd_step.
    - (* do-while *)
      destruct Ck as [[[K0 K1] K2] Ka].
      destruct c0 as [x0|]; [|discriminate K0]. destruct c1 as [e1|]; [|discriminate K1].
      destruct c2; [discriminate K2|]. destruct a; try discriminate Ka.
      cbn [req] in K0, K1.
      cbn [print_stmt print_exp_opt]. rewrite app_nil_r.
      rd_unfold statement. rd_kind. rd_unfold dowhile_stmt. rd_step.
      apply reads_bind with (a := Some x0);
        [apply (proj1 (proj2 (IH x0 K0 N0))); reflexivity|]. cbv beta.
      rd_step. rd_step.
      apply reads_bind with (a := Some e1); [exp_at e1 K1 N1|]. cbv beta.
      repeat rd_step.
    - (* for *)
      destruct Ck as [[[K0 K1] K2] Ka].
      destruct c0 as [e0|]; [|discriminate K0]. destruct c1 as [e1|]; [|discriminate K1].
      destruct c2 as [x2|]; [|discriminate K2]. destruct a as [| | |x]; try discriminate Ka.
      cbn [req] in K0, K1, K2.
      cbn [print_stmt print_operand_opt name_of]. rewrite app_nil_r.
      rd_unfold statement. rd_kind. rd_unfold for_stmt.
      rd_step. rd_step. rd_step. rd_step. rd_step.
      apply reads_bind with (a := Some e0);
        [apply sexp_operand; [exact K0 | exact N0 | reflexivity | reflexivity]|].
      cbv beta. rd_kind. rd_step.
      destruct (operand_head e1 K1) as (t1 & L1 & Pe & Kt).
      eapply reads_token_kind with (x := kind t1);
        [rewrite Pe; reflexivity|].
      destruct Kt as [Kt|[Kt|Kt]]; rewrite Kt; rd_red; rd_step;
      (apply reads_bind with (a := Some e1);
        [apply sexp_operand; [exact K1 | exact N1 | reflexivity | reflexivity]|]);
      cbv beta; rd_step;
      (apply reads_bind with (a := Some x2);
        [apply (proj1 (proj2 (IH x2 K2 N2))); reflexivity|]); cbv beta;
      repeat rd_step. }
  assert (Split : print_stmt (mkNode c0 c1 c2 sib (StmtK k) a) =
                  print_stmt (mkNode c0 c1 c2 None (StmtK k) a) ++
                  match sib with Some u => tk SEMI :: print_stmt u | None => [] end)
    by (cbn [print_stmt]; rewrite app_nil_r; reflexivity).
  assert (TAIL : forall acc rest, seq_end (kind (hd eofTok rest)) = true ->
            reads (fun n => stmt_seq_loop n (acc ++ [mkNode c0 c1 c2 None (StmtK k) a]))
              (match sib with Some u => tk SEMI :: print_stmt u | None => [] end) rest
              (link (acc ++ chain_nodes (mkNode c0 c1 c2 sib (StmtK k) a)))).
  { intros acc rest F. destruct sib as [u|].
    - destruct (IH u Cs Ns) as (_ & _ & LOOP).
      eapply reads_val_eq; [|apply LOOP, F].
      cbn [chain_nodes]. rewrite <- app_assoc. reflexivity.
    - rd_unfold_loop stmt_seq_loop (acc ++ [mkNode c0 c1 c2 None (StmtK k) a]).
      rd_kind0. rewrite F. apply reads_ret. }
  split; [exact ONE|]. split.
  - intros rest F. rewrite Split. rd_unfold stmt_sequence.
    apply reads_bind with (a := Some (mkNode c0 c1 c2 None (StmtK k) a)).
    + apply ONE. destruct sib; [reflexivity|]. apply seq_end_follow, F.
    + cbv beta. cbn [opt_list].
      eapply reads_val_eq; [|apply (TAIL [] rest F)].
      rewrite app_nil_l, link_chain. reflexivity.
  - intros acc rest F. rewrite Split. rd_unfold_loop stmt_seq_loop acc.
    rd_kind. rd_step.
    apply reads_bind with (a := Some (mkNode c0 c1 c2 None (StmtK k) a)).
    + apply ONE. destruct sib; [reflexivity|]. apply seq_end_follow, F.
    + cbv beta. cbn [opt_list]. apply (TAIL acc rest F).
Qed.

(** X7: [exp] reads back any printed complete expression, consuming exactly
    its tokens, whenever the token after it is no operator: the
    precedence levels and the parentheses of [factor] rebuild the tree. *)
Theorem exp_print_roundtrip (e : TreeNode) (rest : list token) (s : state) :
  complete_exp e = true -> consts_nonneg e = true ->
  is_relop (kind (hd eofTok rest)) = false ->
  arith_op (kind (hd eofTok rest)) = false ->
  1 <= pos s -> stream s = print_exp e ++ rest ->
  exists n, forall k, n <= k ->
    exp k s = Some (Some e, Nat.iter (length (print_exp e)) advance s).
Proof.
  intros C N R A P S. exact (proj1 (exp_reads e C N) rest R A s P S).
Qed.

Lemma exp_print_roundtrip_witness :
  exists n, forall k, n <= k ->
    exp k (advance (init (print_exp print_sample_exp ++ [tk SEMI]))) =
    Some (Some print_sample_exp,
          Nat.iter (length (print_exp print_sample_exp)) advance
            (advance (init (print_exp print_sample_exp ++ [tk SEMI])))).
Proof.
  apply (exp_print_roundtrip print_sample_exp [tk SEMI]
           (advance (init (print_exp print_sample_exp ++ [tk SEMI]))));
    reflexivity.
Defined.

(** X8: Printing a complete statement tree whose constants are non-negative
    and parsing the tokens gives the tree back: no diagnostic, the error
    flag unset, every token consumed. *)
Theorem parse_print (t : TreeNode) :
  complete_stmt t = true -> consts_nonneg t = true ->
  parse (print_stmt t) =
  Some (Some t, mkState (print_stmt t) (S (length (print_stmt t))) false []).
Proof.
  intros C N. destruct (stmt_reads t C N) as (_ & SEQ & _).
  destruct (SEQ [] eq_refl (advance (init (print_stmt t)))) as [n E];
    [simpl; lia | unfold stream; simpl; rewrite app_nil_r; reflexivity|].
  assert (P : forall k, n <= k -> parse_fuel k (print_stmt t) =
            Some (Some t, mkState (print_stmt t) (S (length (print_stmt t))) false [])).
  { intros k Hk. unfold parse_fuel, parse_body. rewrite bind_getToken.
    unfold bind at 1. rewrite (E k Hk), iter_state.
    cbn [advance init toks pos Error diags]. rewrite Nat.add_1_r.
    rewrite bind_token_kind. unfold cur. cbn [toks pos pred].
    rewrite nth_overflow by lia. reflexivity. }
  unfold parse. destruct (parse_fuel (budget (print_stmt t)) (print_stmt t)) as [r|] eqn:B.
  - pose proof (parse_fuel_mono (budget (print_stmt t)) (Nat.max n (budget (print_stmt t))) _ r
                  ltac:(lia) B) as B'.
    rewrite P in B' by lia. symmetry. exact B'.
  - exfalso. exact (parse_fuel_total _ B).
Qed.

Lemma parse_print_witness :
  complete_stmt print_sample_tree = true /\
  consts_nonneg print_sample_tree = true /\
  parse (print_stmt print_sample_tree) =
  Some (Some print_sample_tree,
        mkState (print_stmt print_sample_tree)
          (S (length (print_stmt print_sample_tree))) false []).
Proof.
  assert (C : complete_stmt print_sample_tree = true) by reflexivity.
  assert (N : consts_nonneg print_sample_tree = true) by reflexivity.
  split; [exact C | split; [exact N | exact (parse_print _ C N)]].
Defined.
